(** * Taqyon hello-react-counter: the [backend] object and its bridge

    A shallow embedding of
    [examples/hello-react-counter/src-taqyon/backend/backendobject.cpp]
    and of the registration performed in [app/main.cpp], together with the
    properties the specification states about them.

    Layout: the Qt value types the code relies on ([Qt]), the backend
    object ([BackendObject]), the object bridge ([Bridge]), then the
    theorems. *)

From Stdlib Require Import ZArith.
From stdpp Require Import base numbers list strings gmap fin_maps.

Open Scope Z_scope.

(** ** Qt value types used by the backend object *)

Module Qt.

(** A [QChar] is one UTF-16 code unit; a [QString] is a sequence of them.
    [operator==] and [operator!=] on [QString] compare the sequences. *)
Definition QChar : Type := N.
Definition QString : Type := list QChar.

(** A string literal of the source: every character of the literals in
    this program is ASCII, so each one is a single code unit. *)
Definition QStringLiteral (s : string) : QString :=
  (λ a, Ascii.N_of_ascii a) <$> String.list_ascii_of_string s.
#[global] Arguments QStringLiteral : simpl never.

(** [int] is a 32-bit signed integer. Overflow of [+] on [int] is
    undefined in C++; the embedding writes out the two's-complement
    wrap-around that the targets of this program produce. *)
Definition INT_MIN : Z := - 2 ^ 31.
Definition INT_MAX : Z := 2 ^ 31 - 1.
Definition in_int (z : Z) : Prop := INT_MIN ≤ z ≤ INT_MAX.
Definition wrap_int (z : Z) : Z := (z + 2 ^ 31) `mod` 2 ^ 32 - 2 ^ 31.
Definition int_add (a b : Z) : Z := wrap_int (a + b).

(** *** [QString::arg(const QString &)]

    [fmt.arg(a)] replaces every occurrence of the lowest-numbered place
    marker of [fmt] by [a]. A place marker is [%], an optional [L], and
    one or two decimal digits. The markers are located in [fmt] only: the
    inserted text is not scanned again. When [fmt] has no marker the
    result is [fmt]. *)

Definition percent : QChar := 37%N.
Definition letter_L : QChar := 76%N.

Definition digitValue (c : QChar) : option N :=
  if bool_decide (48 ≤ c ≤ 57)%N then Some (c - 48)%N else None.

(** A piece of a scanned format string: a character copied as it is, or
    a place marker with its number and the text it was written as. *)
Inductive ArgPiece : Type :=
  | Verbatim (c : QChar)
  | Escape (number : N) (raw : QString).

(** Where the scanner is inside a candidate marker. *)
Inductive ScanState : Type :=
  | Plain
  | SeenPercent
  | SeenPercentL
  | SeenDigit (locale : bool) (c1 : QChar) (d1 : N).

Definition marker_prefix (locale : bool) : QString :=
  if locale then [percent; letter_L] else [percent].

(** What an unfinished candidate leaves behind at the end of the input
    or when the next character cannot continue it. *)
Definition flush (st : ScanState) : list ArgPiece :=
  match st with
  | Plain => []
  | SeenPercent => [Verbatim percent]
  | SeenPercentL => [Verbatim percent; Verbatim letter_L]
  | SeenDigit locale c1 d1 => [Escape d1 (marker_prefix locale ++ [c1])]
  end.

(** The state after reading [c] outside a candidate. *)
Definition restart (c : QChar) : ScanState * list ArgPiece :=
  if bool_decide (c = percent) then (SeenPercent, []) else (Plain, [Verbatim c]).

Definition scan_step (st : ScanState) (c : QChar) : ScanState * list ArgPiece :=
  match st with
  | Plain => restart c
  | SeenPercent =>
      if bool_decide (c = letter_L) then (SeenPercentL, [])
      else match digitValue c with
           | Some d => (SeenDigit false c d, [])
           | None => let '(st', out) := restart c in (st', flush st ++ out)
           end
  | SeenPercentL =>
      match digitValue c with
      | Some d => (SeenDigit true c d, [])
      | None => let '(st', out) := restart c in (st', flush st ++ out)
      end
  | SeenDigit locale c1 d1 =>
      match digitValue c with
      | Some d2 => (Plain, [Escape (10 * d1 + d2) (marker_prefix locale ++ [c1; c])])
      | None => let '(st', out) := restart c in (st', flush st ++ out)
      end
  end.

Fixpoint findArgEscapes (st : ScanState) (s : QString) : list ArgPiece :=
  match s with
  | [] => flush st
  | c :: s' => let '(st', out) := scan_step st c in out ++ findArgEscapes st' s'
  end.

Fixpoint min_escape (ps : list ArgPiece) : option N :=
  match ps with
  | [] => None
  | Verbatim _ :: ps' => min_escape ps'
  | Escape n _ :: ps' =>
      match min_escape ps' with
      | None => Some n
      | Some m => Some (N.min n m)
      end
  end.

Fixpoint replaceArgEscapes (n : N) (a : QString) (ps : list ArgPiece) : QString :=
  match ps with
  | [] => []
  | Verbatim c :: ps' => c :: replaceArgEscapes n a ps'
  | Escape k raw :: ps' =>
      (if bool_decide (k = n) then a else raw) ++ replaceArgEscapes n a ps'
  end.

Definition arg (fmt a : QString) : QString :=
  let ps := findArgEscapes Plain fmt in
  match min_escape ps with
  | None => fmt
  | Some n => replaceArgEscapes n a ps
  end.

End Qt.

(** ** The backend object (backendobject.cpp) *)

Module BackendObject.
Import Qt.

(** The private state of the class. *)
Record t : Type := mk { m_message : QString; m_count : Z }.

(** The signals of the class, with the argument each emission carries. *)
Inductive Signal : Type :=
  | messageChanged (message : QString)
  | countChanged (count : Z)
  | sendToFrontend (text : QString).

(** A member function runs on the object: it returns a value, the object
    as it leaves it, and the signals it emitted, oldest first. *)
Definition Method (A : Type) : Type := t → A * t * list Signal.

#[global] Instance Method_ret : MRet Method := λ A a this, (a, this, []).
#[global] Instance Method_bind : MBind Method := λ A B f m this,
  let '(a, this1, out1) := m this in
  let '(b, this2, out2) := f a this1 in
  (b, this2, out1 ++ out2).

Definition self : Method t := λ this, (this, this, []).
Definition assign_m_message (msg : QString) : Method unit :=
  λ this, ((), mk msg (m_count this), []).
Definition assign_m_count (count : Z) : Method unit :=
  λ this, ((), mk (m_message this) count, []).
Definition emit (s : Signal) : Method unit := λ this, ((), this, [s]).

(** The object and the signals a member function leaves behind. *)
Definition object_after {A} (m : Method A) (this : t) : t := (m this).1.2.
Definition emitted {A} (m : Method A) (this : t) : list Signal := (m this).2.
Definition returned {A} (m : Method A) (this : t) : A := (m this).1.1.

(** [BackendObject::BackendObject] *)
Definition BackendObject : t :=
  {| m_message := QStringLiteral "Hello from C++ backend!"; m_count := 0 |}.

Definition message : Method QString := this ← self; mret (m_message this).

Definition setMessage (msg : QString) : Method unit :=
  this ← self;
  if bool_decide (m_message this ≠ msg) then
    assign_m_message msg;;
    this ← self;
    emit (messageChanged (m_message this))
  else mret ().

Definition count : Method Z := this ← self; mret (m_count this).

Definition setCount (count : Z) : Method unit :=
  this ← self;
  if bool_decide (m_count this ≠ count) then
    assign_m_count count;;
    this ← self;
    emit (countChanged (m_count this))
  else mret ().

Definition incrementCount : Method unit :=
  this ← self;
  setCount (int_add (m_count this) 1).

Definition sendToBackend (text : QString) : Method unit :=
  emit (sendToFrontend (arg (QStringLiteral "Backend received: %1") text)).

End BackendObject.


(** ** The object bridge

    [main.cpp] hands the backend object to a [QWebChannel]. The channel,
    its transport and the renderer-side proxies are not part of the
    sources of this example; they are modelled from the specification. *)

Module Bridge.
Import Qt.
Import BackendObject.

(** Modelled from the spec: the serialisable values that cross the
    boundary (section 6; arrays and mappings are not needed by the
    backend object and are left out). *)
Inductive Value : Type :=
  | VVoid
  | VBool (b : bool)
  | VInt (z : Z)
  | VString (s : QString).

(** Modelled from the spec: the error taxonomy of section 7, with the
    renderer-local [TimeoutError] of section 5. *)
Inductive ErrorCode : Type :=
  | DuplicateNameError
  | UnknownObjectError
  | UnknownMethodError
  | ArgumentError
  | TransportClosedError
  | SerializationError
  | TimeoutError.

(** Modelled from the spec: a request identifier; the renderer draws
    them from a counter. *)
Definition RequestId : Type := nat.

(** Modelled from the spec: what a call comes back with, a result or an
    error. *)
Definition Outcome : Type := Value + ErrorCode.

(** Modelled from the spec: the schema of one object (section 3):
    property names with their values, method names with their arity,
    signal names. *)
Record Schema : Type := mkSchema {
  properties : gmap string Value;
  methods : list (string * nat);
  signals : list string
}.

(** Modelled from the spec: the message kinds of sections 3 and 6. *)
Inductive Message : Type :=
  | InitRequest
  | InitResponse (schemas : gmap string Schema)
  | InvokeRequest (object method : string) (args : list Value) (id : RequestId)
  | InvokeResponse (id : RequestId) (outcome : Outcome)
  | PropertyChanged (object property : string) (value : Value)
  | SignalEmitted (object signal : string) (args : list Value).

(** *** Host side *)

(** Modelled from the spec: [register] of section 4.1, absent from the
    sources ([QWebChannel::registerObject] is called in [main.cpp]). *)
Definition register (name : string) (object : BackendObject.t)
    (registry : gmap string BackendObject.t)
    : gmap string BackendObject.t + ErrorCode :=
  match registry !! name with
  | Some _ => inr DuplicateNameError
  | None => inl (<[name := object]> registry)
  end.

(** Modelled from the spec: the descriptor builder of section 4.2 for
    the class of section 6; it reads the properties through the getters
    of the source at the moment it is called. *)
Definition describe (object : BackendObject.t) : Schema :=
  {| properties :=
       <["message" := VString (returned message object)]>
         (<["count" := VInt (returned count object)]> ∅);
     methods := [("incrementCount", 0%nat); ("sendToBackend", 1%nat)];
     signals := ["messageChanged"; "countChanged"; "sendToFrontend"] |}.

(** Modelled from the spec: change propagation on the host (section
    4.4): the change signal of a property is sent as a property-changed
    message (and not a second time as a signal), any other signal as a
    signal-emitted message. *)
Definition publish (object : string) (s : Signal) : Message :=
  match s with
  | messageChanged m => PropertyChanged object "message" (VString m)
  | countChanged c => PropertyChanged object "count" (VInt c)
  | sendToFrontend text => SignalEmitted object "sendToFrontend" [VString text]
  end.

(** Modelled from the spec: method resolution of the invocation engine
    (section 4.3) for the methods of section 6. *)
Definition resolve (method : string) (args : list Value)
    : Method Value + ErrorCode :=
  if decide (method = "incrementCount") then
    match args with
    | [] => inl (incrementCount;; mret VVoid)
    | _ => inr ArgumentError
    end
  else if decide (method = "sendToBackend") then
    match args with
    | [VString text] => inl (sendToBackend text;; mret VVoid)
    | _ => inr ArgumentError
    end
  else inr UnknownMethodError.

(** Modelled from the spec: what the host does with one incoming
    message (sections 4.2 and 4.3). The notifications raised by an
    invocation are enqueued as they occur, before its response. *)
Definition host_receive (m : Message) (registry : gmap string BackendObject.t)
    : gmap string BackendObject.t * list Message :=
  match m with
  | InitRequest => (registry, [InitResponse (describe <$> registry)])
  | InvokeRequest object method args id =>
      match registry !! object with
      | None => (registry, [InvokeResponse id (inr UnknownObjectError)])
      | Some target =>
          match resolve method args with
          | inr e => (registry, [InvokeResponse id (inr e)])
          | inl call =>
              let '(v, target', out) := call target in
              (<[object := target']> registry,
               (publish object <$> out) ++ [InvokeResponse id (inl v)])
          end
      end
  | _ => (registry, [])
  end.

(** Modelled from the spec: host application code running a member
    function of a registered object; its notifications are enqueued in
    the order of emission. *)
Definition host_run (object : string) (op : Method unit)
    (registry : gmap string BackendObject.t)
    : gmap string BackendObject.t * list Message :=
  match registry !! object with
  | None => (registry, [])
  | Some target =>
      let '(_, target', out) := op target in
      (<[object := target']> registry, publish object <$> out)
  end.

(** *** Renderer side *)

(** Modelled from the spec: the renderer (sections 3, 4.3 and 4.4): the
    property caches of its proxies, the request-id counter, the pending
    calls, the calls already settled with what they were settled with,
    and the notifications handed to listeners. *)
Record Renderer : Type := mkRenderer {
  proxies : gmap string (gmap string Value);
  next_id : RequestId;
  pending : gset RequestId;
  settled : list (RequestId * Outcome);
  heard : list Message
}.

(** Modelled from the spec: the renderer before the channel is
    initialised: no proxy yet, no call issued. *)
Definition fresh_renderer : Renderer :=
  {| proxies := ∅; next_id := 0%nat; pending := ∅; settled := []; heard := [] |}.

(** Modelled from the spec: issuing a call allocates a fresh request-id
    and registers a pending entry (section 4.3). *)
Definition renderer_call (object method : string) (args : list Value)
    (r : Renderer) : Renderer * Message :=
  let id := next_id r in
  ({| proxies := proxies r; next_id := S id; pending := {[id]} ∪ pending r;
      settled := settled r; heard := heard r |},
   InvokeRequest object method args id).

(** Modelled from the spec: what the renderer does with one incoming
    message (sections 3, 4.3 and 4.4). A response settles the pending
    call with its id; a response whose id is not pending is dropped. *)
Definition renderer_receive (m : Message) (r : Renderer) : Renderer :=
  match m with
  | InitResponse schemas =>
      {| proxies := properties <$> schemas; next_id := next_id r;
         pending := pending r; settled := settled r; heard := heard r |}
  | InvokeResponse id outcome =>
      if decide (id ∈ pending r) then
        {| proxies := proxies r; next_id := next_id r;
           pending := pending r ∖ {[id]};
           settled := settled r ++ [(id, outcome)]; heard := heard r |}
      else r
  | PropertyChanged object property value =>
      {| proxies := alter (insert property value) object (proxies r);
         next_id := next_id r; pending := pending r; settled := settled r;
         heard := heard r ++ [m] |}
  | SignalEmitted object signal args =>
      {| proxies := proxies r; next_id := next_id r; pending := pending r;
         settled := settled r; heard := heard r ++ [m] |}
  | _ => r
  end.

(** Modelled from the spec: transport teardown on the renderer (section
    4.3): every pending entry is settled with [TransportClosedError] and
    the pending table is emptied. *)
Definition renderer_teardown (r : Renderer) : Renderer :=
  {| proxies := proxies r; next_id := next_id r; pending := ∅;
     settled := settled r
                ++ ((λ id, (id, inr TransportClosedError)) <$> elements (pending r));
     heard := heard r |}.

(** *** The channel: host, renderer and the transport between them *)

(** Modelled from the spec: the message transport of section 2: one
    ordered queue per direction (oldest message first), independent of
    each other. [sent] and [delivered] record what the renderer has put
    on the transport and what the transport has handed to it. *)
Record Channel : Type := mkChannel {
  host : gmap string BackendObject.t;
  renderer : Renderer;
  to_host : list Message;
  to_renderer : list Message;
  sent : list Message;
  delivered : list Message;
  is_open : bool
}.

(** Modelled from the spec: the channel before the first message, over
    the objects registered at setup. *)
Definition connect (registry : gmap string BackendObject.t) : Channel :=
  {| host := registry; renderer := fresh_renderer; to_host := [];
     to_renderer := []; sent := []; delivered := []; is_open := true |}.

(** Modelled from the spec: what can happen on a channel. *)
Inductive Event : Type :=
  | RendererInit
  | RendererCall (object method : string) (args : list Value)
  | HostRun (object : string) (op : Method unit)
  | HostDeliver
  | RendererDeliver
  | Teardown.

(** Modelled from the spec: one event on an open channel. The host and
    the renderer each take the oldest message of their queue. Teardown
    discards the messages in flight and closes the channel. *)
Definition step_open (e : Event) (c : Channel) : Channel :=
  match e with
  | RendererInit =>
      {| host := host c; renderer := renderer c;
         to_host := to_host c ++ [InitRequest]; to_renderer := to_renderer c;
         sent := sent c ++ [InitRequest]; delivered := delivered c;
         is_open := true |}
  | RendererCall object method args =>
      let '(r, request) := renderer_call object method args (renderer c) in
      {| host := host c; renderer := r;
         to_host := to_host c ++ [request]; to_renderer := to_renderer c;
         sent := sent c ++ [request]; delivered := delivered c;
         is_open := true |}
  | HostRun object op =>
      let '(registry, out) := host_run object op (host c) in
      {| host := registry; renderer := renderer c;
         to_host := to_host c; to_renderer := to_renderer c ++ out;
         sent := sent c; delivered := delivered c; is_open := true |}
  | HostDeliver =>
      match to_host c with
      | [] => c
      | m :: rest =>
          let '(registry, out) := host_receive m (host c) in
          {| host := registry; renderer := renderer c;
             to_host := rest; to_renderer := to_renderer c ++ out;
             sent := sent c; delivered := delivered c; is_open := true |}
      end
  | RendererDeliver =>
      match to_renderer c with
      | [] => c
      | m :: rest =>
          {| host := host c; renderer := renderer_receive m (renderer c);
             to_host := to_host c; to_renderer := rest;
             sent := sent c; delivered := delivered c ++ [m];
             is_open := true |}
      end
  | Teardown =>
      {| host := host c; renderer := renderer_teardown (renderer c);
         to_host := []; to_renderer := [];
         sent := sent c; delivered := delivered c; is_open := false |}
  end.

(** Modelled from the spec: nothing happens on a closed channel. *)
Definition step (c : Channel) (e : Event) : Channel :=
  if is_open c then step_open e c else c.

(** Modelled from the spec: a schedule is a sequence of events; they
    happen one at a time, oldest first. *)
Definition run (es : list Event) (c : Channel) : Channel := foldl step c es.

(** Modelled from the spec: the request-id an invoke-request carries and
    the request-id and outcome an invoke-response carries (section 6);
    then the same over a sequence of messages, in its order. *)
Definition request_id (m : Message) : option RequestId :=
  match m with InvokeRequest _ _ _ id => Some id | _ => None end.
Definition response (m : Message) : option (RequestId * Outcome) :=
  match m with InvokeResponse id o => Some (id, o) | _ => None end.
Definition request_ids (ms : list Message) : list RequestId := omap request_id ms.
Definition responses (ms : list Message) : list (RequestId * Outcome) := omap response ms.
Definition response_ids (ms : list Message) : list RequestId := (responses ms).*1.

(** Modelled from the spec: the host takes incoming messages one at a
    time, in arrival order (section 5). *)
Fixpoint host_receive_all (ms : list Message) (registry : gmap string BackendObject.t)
    : gmap string BackendObject.t * list Message :=
  match ms with
  | [] => (registry, [])
  | m :: ms' =>
      let '(registry1, out1) := host_receive m registry in
      let '(registry2, out2) := host_receive_all ms' registry1 in
      (registry2, out1 ++ out2)
  end.

(** [main] of [main.cpp]: the backend object is constructed and at once
    registered under the name [backend], on an empty channel, before the
    page is loaded. [QWebChannel::registerObject] is [register]. *)
Definition main_registry : gmap string BackendObject.t :=
  match register "backend" BackendObject ∅ with
  | inl registry => registry
  | inr _ => ∅
  end.

End Bridge.


(** ** Vocabulary of the statements *)

Module Caller.
Import BackendObject.

(** A caller running member functions one after the other on the same
    object. *)
Fixpoint in_turn (ops : list (Method unit)) : Method unit :=
  match ops with
  | [] => mret ()
  | op :: ops' => op;; in_turn ops'
  end.

End Caller.

Module Observation.
Import Bridge.

(** The request-ids the renderer has issued, oldest first. *)
Definition issued (c : Channel) : list RequestId := request_ids (sent c).

(** The request-ids on their way: requests the host has not taken yet
    and responses the renderer has not taken yet. *)
Definition in_flight (c : Channel) : list RequestId :=
  request_ids (to_host c) ++ response_ids (to_renderer c).

(** The request-ids of the responses handed to the renderer. *)
Definition answered (c : Channel) : list RequestId := response_ids (delivered c).

(** Calls settled locally with an error, without a response. *)
Definition settled_with (e : ErrorCode) (ids : list RequestId)
    : list (RequestId * Outcome) :=
  (λ id, (id, inr e)) <$> ids.

(** The schedule that empties both queues of a channel: the host takes
    every message waiting for it, then the renderer takes every message
    waiting for it. *)
Definition drain (c : Channel) : list Event :=
  let host_part := replicate (length (to_host c)) HostDeliver in
  host_part ++ replicate (length (to_renderer (run host_part c))) RendererDeliver.

(** The bookkeeping every reachable channel satisfies: ids are issued
    from the counter; each issued id is in exactly one place (in flight,
    answered, or abandoned at teardown); the settled calls are the
    answered ones followed by the abandoned ones; on an open channel the
    pending table holds exactly the ids in flight, on a closed one
    nothing is pending or queued. *)
Definition channel_inv (c : Channel) : Prop :=
  ∃ abandoned : list RequestId,
    issued c = seq 0 (next_id (renderer c))
    ∧ issued c ≡ₚ in_flight c ++ answered c ++ abandoned
    ∧ settled (renderer c)
      = responses (delivered c) ++ settled_with TransportClosedError abandoned
    ∧ if is_open c
      then abandoned = [] ∧ pending (renderer c) = list_to_set (in_flight c)
      else pending (renderer c) = ∅ ∧ to_host c = [] ∧ to_renderer c = [].

(** The messages the host hands to the transport at one event of a
    channel: the notifications of an operation it runs, or its answer to
    the message it takes from its queue; nothing at any other event, and
    nothing on a closed channel. *)
Definition host_output (c : Channel) (e : Event) : list Message :=
  if is_open c then
    match e with
    | HostRun object op => (host_run object op (host c)).2
    | HostDeliver =>
        match to_host c with
        | [] => []
        | m :: _ => (host_receive m (host c)).2
        end
    | _ => []
    end
  else [].

(** Everything the host hands to the transport along a schedule, in the
    order in which it hands it over. *)
Fixpoint host_outputs (es : list Event) (c : Channel) : list Message :=
  match es with
  | [] => []
  | e :: es' => host_output c e ++ host_outputs es' (step c e)
  end.

(** The messages that are notifications, and those about one object. *)
Definition notification (m : Message) : option Message :=
  match m with
  | PropertyChanged _ _ _ | SignalEmitted _ _ _ => Some m
  | _ => None
  end.

Definition about (object : string) (m : Message) : option Message :=
  match m with
  | PropertyChanged o _ _ | SignalEmitted o _ _ =>
      if decide (o = object) then Some m else None
  | _ => None
  end.

End Observation.

(** ** The main window (mainwindow.h, mainwindow.cpp) *)

Module MainWindow.
Import Qt.

(** [QSystemTrayIcon::ActivationReason] *)
Inductive ActivationReason : Type :=
  | Unknown
  | Context
  | DoubleClick
  | Trigger
  | MiddleClick.

#[global] Instance ActivationReason_eq_dec : EqDecision ActivationReason.
Proof. solve_decision. Defined.

(** The widget handed to the constructor, and the tray icon the window
    may own: both are pointers in the class. *)
Definition MyWebView : Type := N.
Inductive QSystemTrayIcon : Type := trayIcon.

(** The menus the window creates. *)
Inductive Menu : Type := helpMenu | trayMenu.

(** The signals the window connects: [QAction::triggered] of its three
    actions and [QSystemTrayIcon::activated] of its tray icon. *)
Inductive Sender : Type :=
  | aboutAction_triggered
  | showAction_triggered
  | quitAction_triggered
  | trayIcon_activated.

#[global] Instance Sender_eq_dec : EqDecision Sender.
Proof. solve_decision. Defined.

(** The member functions used as slots. *)
Inductive Slot : Type :=
  | slot_showAboutDialog
  | slot_trayIconActivated
  | slot_showWindow
  | slot_quitApp.

(** The calls the window makes on Qt, with their arguments. *)
Inductive Call : Type :=
  | setWindowTitle (title : QString)
  | setCentralWidget (widget : MyWebView)
  | menuBar_addMenu (title : QString)
  | addAction (menu : Menu) (text : QString)
  | connect (sender : Sender) (slot : Slot)
  | new_QSystemTrayIcon
  | trayIcon_setIcon
  | new_QMenu
  | trayIcon_setContextMenu (menu : Menu)
  | trayIcon_show
  | trayIcon_hide
  | delete_trayIcon
  | show
  | raise
  | activateWindow
  | QMessageBox_about (title text : QString)
  | QApplication_quit.

#[global] Instance Menu_eq_dec : EqDecision Menu.
Proof. solve_decision. Defined.
#[global] Instance Slot_eq_dec : EqDecision Slot.
Proof. solve_decision. Defined.
#[global] Instance Call_eq_dec : EqDecision Call.
Proof. solve_decision. Defined.

(** The private state of the class; [None] is [nullptr]. *)
Record t : Type := mk { m_webView : MyWebView; m_trayIcon : option QSystemTrayIcon }.

(** A member function runs on the window: it returns a value, the window
    as it leaves it, and the calls it made on Qt, oldest first. *)
Definition Member (A : Type) : Type := t → A * t * list Call.

#[global] Instance Member_ret : MRet Member := λ A a this, (a, this, []).
#[global] Instance Member_bind : MBind Member := λ A B f m this,
  let '(a, this1, out1) := m this in
  let '(b, this2, out2) := f a this1 in
  (b, this2, out1 ++ out2).

Definition self : Member t := λ this, (this, this, []).
Definition assign_m_trayIcon (icon : option QSystemTrayIcon) : Member unit :=
  λ this, ((), mk (m_webView this) icon, []).
Definition call (c : Call) : Member unit := λ this, ((), this, [c]).

Definition window_after {A} (m : Member A) (this : t) : t := (m this).1.2.
Definition calls {A} (m : Member A) (this : t) : list Call := (m this).2.

(** [MainWindow::setupMenuBar] *)
Definition setupMenuBar : Member unit :=
  call (menuBar_addMenu (QStringLiteral "&Help"));;
  call (addAction helpMenu (QStringLiteral "&About"));;
  call (connect aboutAction_triggered slot_showAboutDialog).

(** [MainWindow::setupTrayIcon]; [isSystemTrayAvailable] is what
    [QSystemTrayIcon::isSystemTrayAvailable()] answers. *)
Definition setupTrayIcon (isSystemTrayAvailable : bool) : Member unit :=
  if negb isSystemTrayAvailable then mret ()
  else
    call new_QSystemTrayIcon;;
    assign_m_trayIcon (Some trayIcon);;
    call trayIcon_setIcon;;
    call new_QMenu;;
    call (addAction trayMenu (QStringLiteral "Show"));;
    call (addAction trayMenu (QStringLiteral "Quit"));;
    call (connect showAction_triggered slot_showWindow);;
    call (connect quitAction_triggered slot_quitApp);;
    call (trayIcon_setContextMenu trayMenu);;
    call (connect trayIcon_activated slot_trayIconActivated);;
    call trayIcon_show.

(** [MainWindow::MainWindow]; [applicationName] is what
    [QCoreApplication::applicationName()] answers. The result is the
    constructed window and the calls made while constructing it. *)
Definition MainWindow (webView : MyWebView) (applicationName : QString)
    (isSystemTrayAvailable : bool) : t * list Call :=
  let '(_, this, out) :=
    (call (setWindowTitle applicationName);;
     this ← self;
     call (setCentralWidget (m_webView this));;
     setupMenuBar;;
     setupTrayIcon isSystemTrayAvailable)
      {| m_webView := webView; m_trayIcon := None |} in
  (this, out).

(** [MainWindow::~MainWindow] *)
Definition destroy : Member unit :=
  this ← self;
  if m_trayIcon this is Some _ then
    call trayIcon_hide;;
    call delete_trayIcon
  else mret ().

(** [MainWindow::showAboutDialog] *)
Definition showAboutDialog : Member unit :=
  call (QMessageBox_about (QStringLiteral "About")
                          (QStringLiteral "Taqyon example app.")).

(** [MainWindow::showWindow] *)
Definition showWindow : Member unit :=
  call show;;
  call raise;;
  call activateWindow.

(** [MainWindow::trayIconActivated] *)
Definition trayIconActivated (reason : ActivationReason) : Member unit :=
  if bool_decide (reason = Trigger) then showWindow else mret ().

(** [MainWindow::quitApp] *)
Definition quitApp : Member unit := call QApplication_quit.

(** *** Signals reaching the window

    A signal emitted by one of the objects the window created runs the
    slots connected to it, in the order of the [connect] calls. *)

Inductive Emission : Type :=
  | about_triggered
  | show_triggered
  | quit_triggered
  | tray_activated (reason : ActivationReason).

#[global] Instance Emission_eq_dec : EqDecision Emission.
Proof. solve_decision. Defined.

Definition sender_of (e : Emission) : Sender :=
  match e with
  | about_triggered => aboutAction_triggered
  | show_triggered => showAction_triggered
  | quit_triggered => quitAction_triggered
  | tray_activated _ => trayIcon_activated
  end.

(** The connections a sequence of calls has made. *)
Definition connection (c : Call) : option (Sender * Slot) :=
  match c with connect sender slot => Some (sender, slot) | _ => None end.
Definition connections (cs : list Call) : list (Sender * Slot) := omap connection cs.

Definition run_slot (slot : Slot) (e : Emission) : Member unit :=
  match slot with
  | slot_showAboutDialog => showAboutDialog
  | slot_showWindow => showWindow
  | slot_quitApp => quitApp
  | slot_trayIconActivated =>
      match e with
      | tray_activated reason => trayIconActivated reason
      | _ => mret ()
      end
  end.

Fixpoint run_slots (slots : list Slot) (e : Emission) : Member unit :=
  match slots with
  | [] => mret ()
  | slot :: slots' => run_slot slot e;; run_slots slots' e
  end.

Definition deliver (wiring : list (Sender * Slot)) (e : Emission) : Member unit :=
  run_slots (filter (λ c, c.1 = sender_of e) wiring).*2 e.

Fixpoint deliver_all (wiring : list (Sender * Slot)) (es : list Emission) : Member unit :=
  match es with
  | [] => mret ()
  | e :: es' => deliver wiring e;; deliver_all wiring es'
  end.

(** The calls made over the life of a window: construction, the signals
    that reach it, destruction. *)
Definition lifetime (webView : MyWebView) (applicationName : QString)
    (isSystemTrayAvailable : bool) (es : list Emission) : list Call :=
  let '(w, built) := MainWindow webView applicationName isSystemTrayAvailable in
  let reactions := deliver_all (connections built) es in
  built ++ calls reactions w ++ calls destroy (window_after reactions w).

End MainWindow.

(** ** The program (main.cpp) *)

Module Main.
Import Qt.

(** [QtMsgType] *)
Inductive QtMsgType : Type :=
  | QtDebugMsg
  | QtWarningMsg
  | QtCriticalMsg
  | QtFatalMsg
  | QtInfoMsg.

(** [QMessageLogContext]: where a message was logged. *)
Record QMessageLogContext : Type := mkContext {
  context_file : QString;
  context_line : Z;
  context_function : QString;
  context_category : QString
}.

(** What [messageHandler] asks of the C library: one call of [fprintf]
    on [stderr], with its format and its argument. [qPrintable s] is the
    macro of the source: the bytes of [s.toLocal8Bit()], as a C string.
    The local 8-bit encoding is Qt's and the platform's; it is kept as a
    step of its own and not computed here. *)
Inductive CString : Type := qPrintable (s : QString).
Inductive Output : Type := fprintf_stderr (format : string) (argument : CString).

(** The format ["%s\n"] of the source: [%s] and a line feed. *)
Definition percent_s_newline : string :=
  String.append "%s" (String (Ascii.ascii_of_nat 10) EmptyString).

(** [messageHandler]. The switch covers the five values of [QtMsgType]. *)
Definition messageHandler (type : QtMsgType) (context : QMessageLogContext)
    (msg : QString) : Output :=
  let logMessage :=
    match type with
    | QtDebugMsg => arg (QStringLiteral "Debug: %1") msg
    | QtInfoMsg => arg (QStringLiteral "Info: %1") msg
    | QtWarningMsg => arg (QStringLiteral "Warning: %1") msg
    | QtCriticalMsg => arg (QStringLiteral "Critical: %1") msg
    | QtFatalMsg => arg (QStringLiteral "Fatal: %1") msg
    end in
  fprintf_stderr percent_s_newline (qPrintable logMessage).

(** [QWebEngineSettings::WebAttribute], the four attributes [main] sets. *)
Inductive WebAttribute : Type :=
  | JavascriptEnabled
  | LocalContentCanAccessFileUrls
  | LocalContentCanAccessRemoteUrls
  | AllowRunningInsecureContent.

(** What [main] gets from outside: the file name of [argv[0]], the
    options parsed from the command line, the application directory,
    whether [setupLogging] leaves a log file in [logFile], whether
    [resolveFrontendUrl] finds a valid url, whether a system tray is
    available, the address of the web view, and what [app.exec()]
    returns. [setupCommandLineParser], [parseCommandLine], [setupLogging]
    and [resolveFrontendUrl] are declared in app_setup.h. *)
Record Environment : Type := mkEnvironment {
  argv0_fileName : QString;
  options_verbose : bool;
  applicationDirPath : QString;
  logFile_is_set : bool;
  frontendUrl_isValid : bool;
  isSystemTrayAvailable : bool;
  webView : MainWindow.MyWebView;
  exec_result : Z
}.

(** The steps [main] takes, in the words of the source. *)
Inductive Step : Type :=
  | setApplicationName (name : QString)
  | setOrganizationName (name : QString)
  | setApplicationVersion (version : QString)
  | new_QApplication
  | setupCommandLineParser
  | parser_process
  | parseCommandLine
  | qInstallMessageHandler
  | qInfo (text : QString) (values : list QString)
  | setupLogging
  | new_MyWebView
  | new_MyWebPage
  | setPage
  | setAttribute (attribute : WebAttribute) (on : bool)
  | registerObject (id : QString) (object : BackendObject.t)
  | setWebChannel
  | resolveFrontendUrl
  | setUrl
  | window (c : MainWindow.Call)
  | exec
  | logFile_close
  | delete_logFile.

(** [main]: the exit status and the steps taken, oldest first, in a run
    in which [parser.process] returns; [QCommandLineParser::process] ends
    the process itself on a parse error or a help or version option, and
    such a run never comes back to [main]. The window is a local of
    [main]: it is destroyed when [main] returns. *)
Definition main (env : Environment) : Z * list Step :=
  let appName := argv0_fileName env in
  let startup :=
    [setApplicationName appName;
     setOrganizationName (QStringLiteral "Taqyon");
     setApplicationVersion (QStringLiteral "1.0.0");
     new_QApplication;
     setupCommandLineParser; parser_process; parseCommandLine]
    ++ (if options_verbose env then
          [qInstallMessageHandler;
           qInfo (QStringLiteral "Verbose mode enabled") [];
           qInfo (QStringLiteral "Application directory:") [applicationDirPath env]]
        else [])
    ++ [setupLogging;
        new_MyWebView; new_MyWebPage; setPage;
        setAttribute JavascriptEnabled true;
        setAttribute LocalContentCanAccessFileUrls true;
        setAttribute LocalContentCanAccessRemoteUrls true;
        setAttribute AllowRunningInsecureContent true;
        registerObject (QStringLiteral "backend") BackendObject.BackendObject;
        setWebChannel;
        resolveFrontendUrl] in
  if negb (frontendUrl_isValid env) then (1, startup)
  else
    let '(mainWindow, built) :=
      MainWindow.MainWindow (webView env) appName (isSystemTrayAvailable env) in
    let result := exec_result env in
    (result,
     startup
     ++ [setUrl]
     ++ (window <$> built)
     ++ [window MainWindow.show; exec]
     ++ (if logFile_is_set env then [logFile_close; delete_logFile] else [])
     ++ (window <$> MainWindow.calls MainWindow.destroy mainWindow)).

End Main.

(** ** Reading the steps of a run *)

Module Trace.
Import Qt.


(** The calls that create, use or delete the tray icon. *)
Definition on_trayIcon (c : MainWindow.Call) : option MainWindow.Call :=
  match c with
  | MainWindow.new_QSystemTrayIcon
  | MainWindow.trayIcon_setIcon
  | MainWindow.trayIcon_setContextMenu _
  | MainWindow.trayIcon_show
  | MainWindow.trayIcon_hide
  | MainWindow.delete_trayIcon => Some c
  | _ => None
  end.

End Trace.

(** ** Sequences of calls on the backend object *)

Module Scenario.
Import Qt BackendObject.

(** The calls a user of the backend object can make. *)
Inductive Invocation : Type :=
  | call_setMessage (msg : QString)
  | call_setCount (n : Z)
  | call_incrementCount
  | call_sendToBackend (text : QString).

Definition perform (i : Invocation) : Method unit :=
  match i with
  | call_setMessage msg => setMessage msg
  | call_setCount n => setCount n
  | call_incrementCount => incrementCount
  | call_sendToBackend text => sendToBackend text
  end.

Fixpoint perform_all (ivs : list Invocation) : Method unit :=
  match ivs with
  | [] => mret ()
  | i :: ivs' => perform i;; perform_all ivs'
  end.

(** A listener that keeps a copy of the two properties and updates it
    from the change signals it hears. *)
Definition hear (copy : BackendObject.t) (s : Signal) : BackendObject.t :=
  match s with
  | messageChanged msg => mk msg (m_count copy)
  | countChanged n => mk (m_message copy) n
  | sendToFrontend _ => copy
  end.

Definition hear_all (copy : BackendObject.t) (out : list Signal) : BackendObject.t :=
  foldl hear copy out.

(** The counts, and the messages, a sequence of signals announces. *)
Definition announced_count (s : Signal) : option Z :=
  match s with countChanged n => Some n | _ => None end.
Definition announced_message (s : Signal) : option QString :=
  match s with messageChanged msg => Some msg | _ => None end.

(** No two neighbours of a sequence are equal. *)
Fixpoint no_repeat {A} (l : list A) : Prop :=
  match l with
  | x :: (y :: _) as l' => x ≠ y ∧ no_repeat l'
  | _ => True
  end.

End Scenario.

(** * Properties of the backend object *)

Import Qt BackendObject Caller.

Section BackendObjectFacts.

Implicit Types (this : BackendObject.t) (msg text : QString) (n : Z).

(** ** What each member function computes *)

Lemma setMessage_unfold msg this :
  setMessage msg this =
    if bool_decide (m_message this ≠ msg)
    then ((), mk msg (m_count this), [messageChanged msg])
    else ((), this, []).
Proof.
  unfold setMessage, mbind, Method_bind, self; simpl.
  case_bool_decide; reflexivity.
Qed.

Lemma setCount_unfold n this :
  setCount n this =
    if bool_decide (m_count this ≠ n)
    then ((), mk (m_message this) n, [countChanged n])
    else ((), this, []).
Proof.
  unfold setCount, mbind, Method_bind, self; simpl.
  case_bool_decide; reflexivity.
Qed.

Lemma incrementCount_unfold this :
  incrementCount this = setCount (int_add (m_count this) 1) this.
Proof.
  unfold incrementCount, mbind, Method_bind, self; simpl.
  destruct (setCount _ this) as [[[] this'] out]; reflexivity.
Qed.

Lemma then_unfold (f g : Method unit) this :
  (f;; g) this =
    ((), object_after g (object_after f this),
     emitted f this ++ emitted g (object_after f this)).
Proof.
  unfold mbind, Method_bind, object_after, emitted.
  destruct (f this) as [[[] this1] out1]; simpl.
  destruct (g this1) as [[[] this2] out2]; reflexivity.
Qed.

(** ** [QString::arg] on the format string of [sendToBackend] *)

Lemma arg_Backend_received text :
  arg (QStringLiteral "Backend received: %1") text
  = QStringLiteral "Backend received: " ++ text.
Proof.
  transitivity (QStringLiteral "Backend received: " ++ (text ++ [])).
  - vm_compute. reflexivity.
  - rewrite app_nil_r. reflexivity.
Qed.

Lemma sendToBackend_unfold text this :
  sendToBackend text this
  = ((), this, [sendToFrontend (QStringLiteral "Backend received: " ++ text)]).
Proof. unfold sendToBackend, emit. rewrite arg_Backend_received. reflexivity. Qed.

(** ** 32-bit [int] arithmetic *)

Lemma int_add_1_no_overflow n :
  in_int n → n ≠ INT_MAX → int_add n 1 = n + 1.
Proof.
  unfold in_int, INT_MIN, INT_MAX, int_add, wrap_int. intros [Hlo Hhi] Hne.
  rewrite Z.mod_small by lia. lia.
Qed.

(** Whatever an overflowing [+] leaves in an [int], it is not the
    mathematical sum. *)
Lemma no_int_is_INT_MAX_plus_1 n : in_int n → n ≠ INT_MAX + 1.
Proof. unfold in_int, INT_MIN, INT_MAX. lia. Qed.

(** ** The setters *)

(** C1. A setter called with a value that differs from the stored one
    stores the supplied value and emits exactly one change signal, which
    carries the new value: [messageChanged] for [setMessage],
    [countChanged] for [setCount]. *)
Theorem setter_with_new_value_stores_and_notifies_once this msg n :
  (m_message this ≠ msg →
     m_message (object_after (setMessage msg) this) = msg
     ∧ emitted (setMessage msg) this = [messageChanged msg])
  ∧ (m_count this ≠ n →
     m_count (object_after (setCount n) this) = n
     ∧ emitted (setCount n) this = [countChanged n]).
Proof.
  unfold object_after, emitted. rewrite setMessage_unfold, setCount_unfold.
  split; intros Hne; rewrite bool_decide_eq_true_2 by assumption; auto.
Qed.

Lemma setter_with_new_value_witness :
  (m_message BackendObject ≠ QStringLiteral "hi" ∧ m_count BackendObject ≠ 5)
  ∧ emitted (setMessage (QStringLiteral "hi")) BackendObject
    = [messageChanged (QStringLiteral "hi")]
  ∧ emitted (setCount 5) BackendObject = [countChanged 5].
Proof.
  assert (Hm : m_message BackendObject ≠ QStringLiteral "hi") by (vm_compute; discriminate).
  assert (Hn : m_count BackendObject ≠ 5) by (vm_compute; discriminate).
  destruct (setter_with_new_value_stores_and_notifies_once
              BackendObject (QStringLiteral "hi") 5) as [Hmessage Hcount].
  split; [split; assumption|].
  split; [apply (Hmessage Hm) | apply (Hcount Hn)].
Defined.

(** C2. A setter called with the value already stored emits nothing and
    leaves the object as it is. Hence the second of two [setCount n] in a
    row is always silent, and when the first one changes the count the
    two together emit exactly one [countChanged n]; from the constructed
    object, [setCount 5] twice emits one [countChanged 5]. *)
Theorem setter_with_same_value_is_silent this msg n :
  (m_message this = msg →
     object_after (setMessage msg) this = this ∧ emitted (setMessage msg) this = [])
  ∧ (m_count this = n →
     object_after (setCount n) this = this ∧ emitted (setCount n) this = [])
  ∧ emitted (setCount n) (object_after (setCount n) this) = []
  ∧ (m_count this ≠ n →
     emitted (setCount n;; setCount n) this = [countChanged n])
  ∧ emitted (setCount 5;; setCount 5) BackendObject = [countChanged 5].
Proof.
  assert (Hagain : ∀ this', emitted (setCount n) (object_after (setCount n) this') = []).
  { intros this'. unfold object_after, emitted.
    rewrite (setCount_unfold n this').
    destruct (decide (m_count this' = n)) as [Heq|Hne].
    - rewrite (bool_decide_eq_false_2 (m_count this' ≠ n)) by tauto. simpl.
      rewrite setCount_unfold, bool_decide_eq_false_2 by tauto. reflexivity.
    - rewrite (bool_decide_eq_true_2 (m_count this' ≠ n)) by assumption. simpl.
      rewrite setCount_unfold. simpl.
      rewrite bool_decide_eq_false_2 by tauto. reflexivity. }
  split; [|split; [|split; [|split]]].
  - intros Heq. unfold object_after, emitted. rewrite setMessage_unfold.
    rewrite bool_decide_eq_false_2 by tauto. split; reflexivity.
  - intros Heq. unfold object_after, emitted. rewrite setCount_unfold.
    rewrite bool_decide_eq_false_2 by tauto. split; reflexivity.
  - apply Hagain.
  - intros Hne. unfold emitted at 1. rewrite then_unfold. simpl.
    rewrite Hagain, app_nil_r. unfold emitted. rewrite setCount_unfold.
    rewrite bool_decide_eq_true_2 by assumption. reflexivity.
  - vm_compute. reflexivity.
Qed.

Lemma setter_with_same_value_witness :
  (m_message BackendObject = QStringLiteral "Hello from C++ backend!"
   ∧ m_count BackendObject = 0 ∧ m_count BackendObject ≠ 5)
  ∧ emitted (setMessage (QStringLiteral "Hello from C++ backend!")) BackendObject = []
  ∧ emitted (setCount 0) BackendObject = []
  ∧ emitted (setCount 5;; setCount 5) BackendObject = [countChanged 5].
Proof.
  assert (Hm : m_message BackendObject = QStringLiteral "Hello from C++ backend!")
    by reflexivity.
  assert (Hn : m_count BackendObject = 0) by reflexivity.
  assert (Hne : m_count BackendObject ≠ 5) by (vm_compute; discriminate).
  destruct (setter_with_same_value_is_silent BackendObject
              (QStringLiteral "Hello from C++ backend!") 0)
    as (Hmessage & Hcount & _).
  destruct (setter_with_same_value_is_silent BackendObject [] 5)
    as (_ & _ & _ & Htwice & _).
  split; [repeat split; assumption|].
  split; [apply (Hmessage Hm)|].
  split; [apply (Hcount Hn) | apply (Htwice Hne)].
Defined.

(** ** [incrementCount] *)

(** C3, as the specification states it, fails where [int] ends: at
    [INT_MAX] the sum [m_count + 1] is not an [int] (see
    [no_int_is_INT_MAX_plus_1]), and the count stored afterwards is not
    the old count plus one. *)
Lemma incrementCount_at_INT_MAX_does_not_add_one :
  let this := mk (QStringLiteral "Hello from C++ backend!") INT_MAX in
  in_int (m_count this)
  ∧ m_count (object_after incrementCount this) ≠ m_count this + 1.
Proof. split; [vm_compute; split; discriminate | vm_compute; discriminate]. Qed.

(** C3, amended. On an object whose count is an [int] below [INT_MAX],
    [incrementCount] stores the count plus one and emits exactly one
    [countChanged], carrying that value; in particular, from count 0 it
    stores 1 and emits exactly one [countChanged 1]. *)
Theorem incrementCount_adds_one_below_INT_MAX this :
  in_int (m_count this) → m_count this ≠ INT_MAX →
  (m_count (object_after incrementCount this) = m_count this + 1
   ∧ emitted incrementCount this = [countChanged (m_count this + 1)])
  ∧ (m_count this = 0 →
     m_count (object_after incrementCount this) = 1
     ∧ emitted incrementCount this = [countChanged 1]).
Proof.
  intros Hint Hmax.
  assert (Hstep : m_count (object_after incrementCount this) = m_count this + 1
                  ∧ emitted incrementCount this = [countChanged (m_count this + 1)]).
  { unfold object_after, emitted.
    rewrite incrementCount_unfold, setCount_unfold.
    rewrite (int_add_1_no_overflow _ Hint Hmax).
    rewrite bool_decide_eq_true_2 by lia. split; reflexivity. }
  split; [exact Hstep|].
  intros Hzero. rewrite Hzero in Hstep. exact Hstep.
Qed.

Lemma incrementCount_adds_one_witness :
  (in_int (m_count BackendObject) ∧ m_count BackendObject ≠ INT_MAX
   ∧ m_count BackendObject = 0)
  ∧ m_count (object_after incrementCount BackendObject) = 1
  ∧ emitted incrementCount BackendObject = [countChanged 1].
Proof.
  assert (Hint : in_int (m_count BackendObject))
    by (vm_compute; split; discriminate).
  assert (Hmax : m_count BackendObject ≠ INT_MAX) by (vm_compute; discriminate).
  assert (Hzero : m_count BackendObject = 0) by reflexivity.
  split; [split; [|split]; assumption|].
  apply (incrementCount_adds_one_below_INT_MAX BackendObject Hint Hmax), Hzero.
Defined.

(** ** [sendToBackend] *)

Lemma in_turn_cons (op : Method unit) (ops : list (Method unit)) this :
  emitted (in_turn (op :: ops)) this
  = emitted op this ++ emitted (in_turn ops) (object_after op this).
Proof. simpl. unfold emitted at 1. rewrite then_unfold. reflexivity. Qed.

(** C9. For every text and whatever the state of the object,
    [sendToBackend text] emits [sendToFrontend] once, carrying
    "Backend received: " followed by [text], which is never [text]
    itself. *)
Theorem sendToBackend_emits_prefixed_text this text :
  emitted (sendToBackend text) this
  = [sendToFrontend (QStringLiteral "Backend received: " ++ text)]
  ∧ QStringLiteral "Backend received: " ++ text ≠ text.
Proof.
  split.
  - unfold emitted. rewrite sendToBackend_unfold. reflexivity.
  - intros Heq. apply (f_equal length) in Heq.
    rewrite length_app in Heq. vm_compute (length (QStringLiteral _)) in Heq. lia.
Qed.

(** C4. Every call of [sendToBackend] emits exactly one [sendToFrontend]:
    calls made in turn emit one signal each, in the order of the calls,
    and two calls with the same text, such as "a" and "a" again, emit two
    signals. *)
Theorem sendToBackend_is_never_deduplicated this text (texts : list QString) :
  length (emitted (sendToBackend text) this) = 1%nat
  ∧ emitted (in_turn (sendToBackend <$> texts)) this
    = (λ t, sendToFrontend (QStringLiteral "Backend received: " ++ t)) <$> texts
  ∧ emitted (sendToBackend text;; sendToBackend text) this
    = [sendToFrontend (QStringLiteral "Backend received: " ++ text);
       sendToFrontend (QStringLiteral "Backend received: " ++ text)]
  ∧ emitted (sendToBackend (QStringLiteral "a");; sendToBackend (QStringLiteral "a")) this
    = [sendToFrontend (QStringLiteral "Backend received: a");
       sendToFrontend (QStringLiteral "Backend received: a")].
Proof.
  assert (Htwice : ∀ t, emitted (sendToBackend t;; sendToBackend t) this
                        = [sendToFrontend (QStringLiteral "Backend received: " ++ t);
                           sendToFrontend (QStringLiteral "Backend received: " ++ t)]).
  { intros t. unfold emitted at 1. rewrite then_unfold. cbn [fst snd].
    unfold emitted, object_after. rewrite !sendToBackend_unfold. reflexivity. }
  split; [|split; [|split]].
  - unfold emitted. rewrite sendToBackend_unfold. reflexivity.
  - induction texts as [|t texts IH]; [reflexivity|].
    rewrite fmap_cons, in_turn_cons.
    unfold object_after, emitted at 1. rewrite sendToBackend_unfold.
    cbn [fst snd app]. rewrite IH. reflexivity.
  - apply Htwice.
  - apply Htwice.
Qed.

(** ** Frame *)

(** C10. [setCount] and [incrementCount] leave the message as it is,
    [setMessage] leaves the count as it is, and [sendToBackend] leaves
    both as they are. *)
Theorem member_functions_touch_only_their_property this msg text n :
  m_message (object_after (setCount n) this) = m_message this
  ∧ m_message (object_after incrementCount this) = m_message this
  ∧ m_count (object_after (setMessage msg) this) = m_count this
  ∧ m_message (object_after (sendToBackend text) this) = m_message this
  ∧ m_count (object_after (sendToBackend text) this) = m_count this.
Proof.
  unfold object_after.
  rewrite incrementCount_unfold, !setCount_unfold, setMessage_unfold,
    sendToBackend_unfold.
  repeat case_bool_decide; simpl; auto.
Qed.

End BackendObjectFacts.

(** * Properties of the bridge *)

Import Bridge Observation.

Section ChannelFacts.

Implicit Types (c : Channel) (e : Event) (es : list Event) (m : Message)
  (ms : list Message) (registry : gmap string BackendObject.t)
  (r : Renderer) (id : RequestId).

(** ** Running schedules *)

Lemma run_app es1 es2 c : run (es1 ++ es2) c = run es2 (run es1 c).
Proof. apply foldl_app. Qed.

Lemma run_cons e es c : run (e :: es) c = run es (step c e).
Proof. reflexivity. Qed.

Lemma run_closed es c : is_open c = false → run es c = c.
Proof.
  intros Hclosed. induction es as [|e es IH]; [reflexivity|].
  rewrite run_cons. unfold step. rewrite Hclosed. exact IH.
Qed.

Lemma step_Teardown_closed c : is_open (step c Teardown) = false.
Proof. unfold step. destruct (is_open c) eqn:Hopen; [reflexivity | exact Hopen]. Qed.

(** ** The transport hands messages over in the order they were queued *)

Lemma deliver_all_to_renderer c :
  is_open c = true →
  let c' := run (replicate (length (to_renderer c)) RendererDeliver) c in
  delivered c' = delivered c ++ to_renderer c
  ∧ to_renderer c' = [] ∧ to_host c' = to_host c ∧ is_open c' = true
  ∧ host c' = host c ∧ sent c' = sent c
  ∧ renderer c' = foldl (flip renderer_receive) (renderer c) (to_renderer c).
Proof.
  remember (to_renderer c) as queue eqn:Hqueue.
  revert c Hqueue. induction queue as [|m queue IH]; intros c Hqueue Hopen.
  - simpl. rewrite app_nil_r. auto 10.
  - cbn [length replicate]. rewrite run_cons.
    assert (Hstep : step c RendererDeliver
                    = {| host := host c; renderer := renderer_receive m (renderer c);
                         to_host := to_host c; to_renderer := queue;
                         sent := sent c; delivered := delivered c ++ [m];
                         is_open := true |}).
    { unfold step. rewrite Hopen. simpl. rewrite <- Hqueue. reflexivity. }
    pose proof (IH (step c RendererDeliver)) as IH'.
    rewrite Hstep in IH' |- *. specialize (IH' eq_refl eq_refl).
    cbn zeta in IH'. cbn [to_renderer delivered to_host host sent renderer] in IH'.
    destruct IH' as (Hd & Hr & Hh & Ho & Hhost & Hsent & Hrend).
    rewrite Hd, <- app_assoc. auto 10.
Qed.

(** ** Construction and registration *)

(** C6. The constructed backend object has message
    "Hello from C++ backend!" and count 0; [main] registers it under the
    name [backend] as constructed, and a schema taken before any mutation,
    and the proxy the renderer builds from it, show these two values. *)
Theorem constructed_object_is_registered_with_initial_values :
  returned message BackendObject = QStringLiteral "Hello from C++ backend!"
  ∧ returned count BackendObject = 0
  ∧ main_registry !! "backend" = Some BackendObject
  ∧ properties (describe BackendObject) !! "message"
    = Some (VString (QStringLiteral "Hello from C++ backend!"))
  ∧ properties (describe BackendObject) !! "count" = Some (VInt 0)
  ∧ to_renderer (run [RendererInit; HostDeliver] (connect main_registry))
    = [InitResponse {[ "backend" := describe BackendObject ]}]
  ∧ proxies (renderer (run [RendererInit; HostDeliver; RendererDeliver]
                         (connect main_registry))) !! "backend"
    = Some (properties (describe BackendObject)).
Proof. repeat split; vm_compute; reflexivity. Qed.

(** ** Request-ids and responses in sequences of messages *)

Lemma request_ids_app ms1 ms2 :
  request_ids (ms1 ++ ms2) = request_ids ms1 ++ request_ids ms2.
Proof. apply omap_app. Qed.

Lemma responses_app ms1 ms2 :
  responses (ms1 ++ ms2) = responses ms1 ++ responses ms2.
Proof. apply omap_app. Qed.

Lemma response_ids_app ms1 ms2 :
  response_ids (ms1 ++ ms2) = response_ids ms1 ++ response_ids ms2.
Proof. unfold response_ids. rewrite responses_app. apply fmap_app. Qed.

Lemma responses_publish (name : string) (out : list Signal) :
  responses (publish name <$> out) = [].
Proof. induction out as [|[] out IH]; [reflexivity|exact IH..]. Qed.

(** The host sends one response for an invoke-request, under the id of
    the request, and none for any other message. *)
Lemma host_receive_response_ids m registry :
  response_ids (host_receive m registry).2 = request_ids [m].
Proof.
  destruct m as [| |object method args id| | |]; try reflexivity.
  cbn [host_receive]. destruct (registry !! object) as [target|]; [|reflexivity].
  destruct (resolve method args) as [call|err]; [|reflexivity].
  destruct (call target) as [[v target'] out]. cbn [snd].
  rewrite response_ids_app. unfold response_ids at 1.
  rewrite responses_publish. reflexivity.
Qed.

Lemma host_run_responses (name : string) (op : Method unit) registry :
  responses (host_run name op registry).2 = [].
Proof.
  unfold host_run. destruct (registry !! name) as [target|]; [|reflexivity].
  destruct (op target) as [[[] target'] out]. apply responses_publish.
Qed.

Lemma host_receive_all_response_ids ms registry :
  response_ids (host_receive_all ms registry).2 = request_ids ms.
Proof.
  revert registry. induction ms as [|m ms IH]; intros registry; [reflexivity|].
  cbn [host_receive_all].
  pose proof (host_receive_response_ids m registry) as Hm.
  destruct (host_receive m registry) as [registry1 out1].
  specialize (IH registry1).
  destruct (host_receive_all ms registry1) as [registry2 out2].
  cbn [snd] in *. rewrite response_ids_app, Hm, IH, <- request_ids_app.
  reflexivity.
Qed.

(** ** The bookkeeping holds on every reachable channel *)

Lemma connect_inv registry : channel_inv (connect registry).
Proof. exists []. cbn. split_and!; reflexivity. Qed.

Lemma inv_in_flight_NoDup c (abandoned : list RequestId) :
  issued c = seq 0 (next_id (renderer c)) →
  issued c ≡ₚ in_flight c ++ answered c ++ abandoned →
  NoDup (in_flight c ++ answered c ++ abandoned).
Proof. intros Hissued Hwhere. rewrite <- Hwhere, Hissued. apply NoDup_seq. Qed.

Ltac channel_fields :=
  cbn [host renderer to_host to_renderer sent delivered is_open
       proxies next_id pending settled heard fst snd].

Ltac open_inv :=
  exists (@nil RequestId);
  unfold channel_inv, issued, in_flight, answered, settled_with;
  channel_fields; cbn [fmap list_fmap];
  rewrite ?request_ids_app, ?response_ids_app, ?responses_app, ?app_nil_r.

Lemma step_open_inv c e :
  is_open c = true → channel_inv c → channel_inv (step_open e c).
Proof.
  intros Hopen (abandoned & Hissued & Hwhere & Hsettled & Hstate).
  rewrite Hopen in Hstate. destruct Hstate as [-> Hpending].
  pose proof (inv_in_flight_NoDup c [] Hissued Hwhere) as Hnodup.
  unfold issued, in_flight, answered in Hissued, Hwhere, Hpending, Hnodup.
  unfold settled_with in Hsettled. cbn [fmap list_fmap] in Hsettled.
  rewrite !app_nil_r in *.
  destruct e as [|object method args|object op| | |]; cbn [step_open].
  - (* RendererInit *)
    open_inv. change (request_ids [InitRequest]) with (@nil RequestId).
    rewrite ?app_nil_r. auto.
  - (* RendererCall *)
    cbn [renderer_call]. open_inv.
    change (request_ids [InvokeRequest object method args (next_id (renderer c))])
      with [next_id (renderer c)].
    split; [|split; [|split; [|split]]].
    + rewrite Hissued, seq_S. reflexivity.
    + rewrite Hwhere. solve_Permutation.
    + exact Hsettled.
    + reflexivity.
    + rewrite Hpending. apply set_eq. intros x. set_unfold. tauto.
  - (* HostRun *)
    pose proof (host_run_responses object op (host c)) as Hout.
    destruct (host_run object op (host c)) as [registry out]. cbn [snd] in Hout.
    assert (Hids : response_ids out = [])
      by (unfold response_ids; rewrite Hout; reflexivity).
    open_inv. rewrite Hids, ?app_nil_r. auto.
  - (* HostDeliver *)
    destruct (to_host c) as [|m rest] eqn:Hqueue.
    { open_inv. rewrite Hopen, Hqueue. auto. }
    pose proof (host_receive_response_ids m (host c)) as Hout.
    destruct (host_receive m (host c)) as [registry out]. cbn [snd] in Hout.
    change (m :: rest) with ([m] ++ rest) in Hwhere, Hpending, Hnodup.
    rewrite request_ids_app in Hwhere, Hpending, Hnodup.
    open_inv. rewrite Hout.
    split; [|split; [|split; [|split]]].
    + exact Hissued.
    + rewrite Hwhere. solve_Permutation.
    + exact Hsettled.
    + reflexivity.
    + rewrite Hpending. apply set_eq. intros x. set_unfold. tauto.
  - (* RendererDeliver *)
    destruct (to_renderer c) as [|m rest] eqn:Hqueue.
    { open_inv. rewrite Hopen, Hqueue. auto. }
    change (m :: rest) with ([m] ++ rest) in Hwhere, Hpending, Hnodup.
    rewrite response_ids_app in Hwhere, Hpending, Hnodup.
    destruct m as [|schemas| |id outcome|object property value|object signal args];
      try (open_inv; cbn [renderer_receive]; channel_fields;
           first [ change (response_ids [InitRequest]) with (@nil RequestId) in *
                 | change (response_ids [InitResponse schemas]) with (@nil RequestId) in *
                 | change (response_ids [InvokeRequest object method args id])
                     with (@nil RequestId) in *
                 | change (response_ids [PropertyChanged object property value])
                     with (@nil RequestId) in *
                 | change (response_ids [SignalEmitted object signal args])
                     with (@nil RequestId) in * ];
           cbn [app] in *; rewrite ?app_nil_r; auto; fail).
    change (response_ids [InvokeResponse id outcome]) with [id]
      in Hwhere, Hpending, Hnodup.
    assert (Hin : id ∈ pending (renderer c))
      by (rewrite Hpending; set_unfold; tauto).
    assert (Hfresh : id ∉ request_ids (to_host c) ++ response_ids rest).
    { apply NoDup_app in Hnodup as (Hnd & _ & _).
      apply NoDup_app in Hnd as (_ & Hdisjoint & Hnd).
      apply NoDup_cons in Hnd as [Hrest _].
      intros [Hhost|Hrest']%elem_of_app; [|tauto].
      apply (Hdisjoint id Hhost). left. }
    cbn [renderer_receive]. rewrite decide_True by exact Hin.
    open_inv.
    change (response_ids [InvokeResponse id outcome]) with [id].
    change (responses [InvokeResponse id outcome]) with [(id, outcome)].
    split; [|split; [|split; [|split]]].
    + exact Hissued.
    + rewrite Hwhere. solve_Permutation.
    + rewrite Hsettled. reflexivity.
    + reflexivity.
    + rewrite Hpending. apply set_eq. intros x.
      rewrite elem_of_difference, !elem_of_list_to_set, !elem_of_app,
        elem_of_cons, elem_of_nil, elem_of_singleton.
      rewrite elem_of_app in Hfresh.
      split; [tauto|]. intros Hx. split; [tauto|]. intros ->. tauto.
  - (* Teardown *)
    exists (elements (pending (renderer c))).
    unfold channel_inv, issued, in_flight, answered, renderer_teardown.
    channel_fields.
    split; [|split; [|split]]; [exact Hissued| |rewrite Hsettled; reflexivity|auto].
    rewrite Hwhere, Hpending.
    apply NoDup_app in Hnodup as (Hnd & _ & _).
    rewrite (elements_list_to_set _ Hnd). cbn [app]. solve_Permutation.
Qed.

Lemma step_inv c e : channel_inv c → channel_inv (step c e).
Proof.
  intros Hinv. unfold step. destruct (is_open c) eqn:Hopen; [|exact Hinv].
  apply step_open_inv; assumption.
Qed.

Lemma run_inv es c : channel_inv c → channel_inv (run es c).
Proof.
  revert c. induction es as [|e es IH]; intros c Hinv; [exact Hinv|].
  rewrite run_cons. apply IH, step_inv, Hinv.
Qed.

Lemma reachable_inv registry es : channel_inv (run es (connect registry)).
Proof. apply run_inv, connect_inv. Qed.

(** What the bookkeeping says on an open channel. *)
Lemma open_channel_facts c :
  is_open c = true → channel_inv c →
  issued c = seq 0 (next_id (renderer c))
  ∧ issued c ≡ₚ in_flight c ++ answered c
  ∧ NoDup (in_flight c ++ answered c)
  ∧ settled (renderer c) = responses (delivered c)
  ∧ pending (renderer c) = list_to_set (in_flight c).
Proof.
  intros Hopen (abandoned & Hissued & Hwhere & Hsettled & Hstate).
  rewrite Hopen in Hstate. destruct Hstate as [-> Hpending].
  unfold settled_with in Hsettled. cbn [fmap list_fmap] in Hsettled.
  rewrite app_nil_r in Hwhere, Hsettled.
  split_and!; try assumption.
  rewrite <- Hwhere, Hissued. apply NoDup_seq.
Qed.

Lemma reachable_ids_NoDup c :
  channel_inv c → NoDup (issued c) ∧ NoDup (answered c) ∧ answered c ⊆ issued c.
Proof.
  intros (abandoned & Hissued & Hwhere & _).
  pose proof (inv_in_flight_NoDup c abandoned Hissued Hwhere) as Hnodup.
  split; [rewrite Hissued; apply NoDup_seq|].
  apply NoDup_app in Hnodup as (_ & _ & Hnodup).
  apply NoDup_app in Hnodup as (Hanswered & _ & _).
  split; [exact Hanswered|].
  intros id Hid. rewrite Hwhere, !elem_of_app. tauto.
Qed.

(** ** Emptying the queues *)

Lemma deliver_all_to_host c :
  is_open c = true →
  let c' := run (replicate (length (to_host c)) HostDeliver) c in
  to_host c' = [] ∧ is_open c' = true ∧ sent c' = sent c.
Proof.
  remember (to_host c) as queue eqn:Hqueue.
  revert c Hqueue. induction queue as [|m queue IH]; intros c Hqueue Hopen.
  - cbn. auto.
  - cbn [length replicate]. rewrite run_cons.
    pose proof (IH (step c HostDeliver)) as IH'.
    unfold step in IH' |- *. rewrite Hopen in IH' |- *.
    cbn [step_open] in IH' |- *. rewrite <- Hqueue in IH' |- *.
    destruct (host_receive m (host c)) as [registry out].
    apply (IH' eq_refl eq_refl).
Qed.

Lemma drain_empties_the_queues c :
  is_open c = true →
  let c' := run (drain c) c in
  is_open c' = true ∧ to_host c' = [] ∧ to_renderer c' = [] ∧ sent c' = sent c.
Proof.
  intros Hopen. unfold drain. cbn zeta. rewrite run_app.
  destruct (deliver_all_to_host c Hopen) as (Hhost & Hopen1 & Hsent1).
  destruct (deliver_all_to_renderer _ Hopen1)
    as (_ & Hrenderer & Hhost2 & Hopen2 & _ & Hsent2 & _).
  rewrite Hopen2, Hrenderer, Hhost2, Hhost, Hsent2, Hsent1. auto.
Qed.

(** ** Teardown *)

Lemma teardown_facts c :
  is_open c = true → channel_inv c →
  let c' := step c Teardown in
  is_open c' = false ∧ to_host c' = [] ∧ to_renderer c' = []
  ∧ sent c' = sent c ∧ delivered c' = delivered c
  ∧ pending (renderer c') = ∅
  ∧ settled (renderer c')
    = responses (delivered c)
      ++ settled_with TransportClosedError (elements (pending (renderer c)))
  ∧ elements (pending (renderer c)) ≡ₚ in_flight c.
Proof.
  intros Hopen Hinv.
  destruct (open_channel_facts c Hopen Hinv)
    as (_ & _ & Hnodup & Hsettled & Hpending).
  unfold step. rewrite Hopen. cbn. rewrite Hsettled.
  split_and!; try reflexivity.
  rewrite Hpending. apply elements_list_to_set.
  apply NoDup_app in Hnodup as (Hnd & _ & _). exact Hnd.
Qed.

Lemma elem_of_settled_with (err : ErrorCode) (ids : list RequestId) id (o : Outcome) :
  (id, o) ∈ settled_with err ids ↔ id ∈ ids ∧ o = inr err.
Proof.
  unfold settled_with. rewrite list_elem_of_fmap. split.
  - intros (id' & [= -> ->] & Hin). auto.
  - intros [Hin ->]. exists id. auto.
Qed.

Lemma settled_with_ids (err : ErrorCode) (ids : list RequestId) :
  (settled_with err ids).*1 = ids.
Proof.
  unfold settled_with. induction ids as [|id ids IH]; [reflexivity|].
  cbn [fmap list_fmap] in *. rewrite IH. reflexivity.
Qed.

(** ** Requests and responses *)

(** C7. The host answers a sequence of invoke-requests with distinct ids
    by one response per request, under the id of the request. On a
    channel, however it is scheduled, no id is issued twice and no id is
    answered twice; an open channel can be run until every issued call
    has been answered exactly once and nothing is pending; and a call
    that is pending when the transport is torn down is never answered
    afterwards: it is settled with [TransportClosedError] instead. *)
Theorem every_invoke_request_is_answered_once
    registry (requests : list Message) es es' id :
  let c := run es (connect registry) in
  (NoDup (request_ids requests) →
     response_ids (host_receive_all requests registry).2 = request_ids requests
     ∧ NoDup (response_ids (host_receive_all requests registry).2))
  ∧ NoDup (issued c)
  ∧ NoDup (answered c)
  ∧ answered c ⊆ issued c
  ∧ (is_open c = true →
     let c' := run (drain c) c in
     is_open c' = true ∧ issued c' = issued c ∧ answered c' ≡ₚ issued c
     ∧ settled (renderer c') = responses (delivered c')
     ∧ pending (renderer c') = ∅)
  ∧ (is_open c = true → id ∈ pending (renderer c) →
     let c' := run (Teardown :: es') c in
     (id ∉ answered c')
     ∧ (id, inr TransportClosedError) ∈ settled (renderer c')).
Proof.
  intros c.
  assert (Hinv : channel_inv c) by apply reachable_inv.
  split.
  { intros Hdistinct. rewrite host_receive_all_response_ids. auto. }
  destruct (reachable_ids_NoDup c Hinv) as (Hissued & Hanswered & Hsub).
  split; [exact Hissued|]. split; [exact Hanswered|]. split; [exact Hsub|].
  split.
  - intros Hopen. cbn zeta.
    destruct (drain_empties_the_queues c Hopen) as (Hopen' & Hhost & Hrenderer & Hsent).
    pose proof (run_inv (drain c) c Hinv) as Hinv'.
    destruct (open_channel_facts _ Hopen' Hinv')
      as (_ & Hwhere & _ & Hsettled & Hpending).
    assert (Hissued' : issued (run (drain c) c) = issued c)
      by (unfold issued; rewrite Hsent; reflexivity).
    unfold in_flight in Hwhere, Hpending.
    rewrite Hhost, Hrenderer in Hwhere, Hpending.
    split_and!; try assumption.
    rewrite <- Hissued', Hwhere. reflexivity.
  - intros Hopen Hpending. cbn zeta. rewrite run_cons.
    rewrite (run_closed es' _ (step_Teardown_closed c)).
    destruct (teardown_facts c Hopen Hinv)
      as (_ & _ & _ & _ & Hdelivered & _ & Hsettled & Helements).
    destruct (open_channel_facts c Hopen Hinv) as (_ & _ & Hnodup & _ & _).
    assert (Hflight : id ∈ in_flight c)
      by (rewrite <- Helements; apply elem_of_elements, Hpending).
    split.
    + unfold answered. rewrite Hdelivered.
      apply NoDup_app in Hnodup as (_ & Hdisjoint & _).
      apply Hdisjoint, Hflight.
    + rewrite Hsettled, elem_of_app, elem_of_settled_with.
      right. split; [apply elem_of_elements, Hpending | reflexivity].
Qed.

Lemma every_invoke_request_is_answered_once_witness :
  let requests := [InvokeRequest "backend" "incrementCount" [] 7%nat;
                   InvokeRequest "backend" "sendToBackend" [VString []] 3%nat;
                   InvokeRequest "nobody" "incrementCount" [] 5%nat] in
  let calls := [RendererCall "backend" "incrementCount" [];
                RendererCall "backend" "sendToBackend" [VString []]] in
  let c := run (calls ++ [HostDeliver; RendererDeliver; RendererDeliver])
               (connect main_registry) in
  (NoDup (request_ids requests) ∧ is_open c = true ∧ 1%nat ∈ pending (renderer c))
  ∧ response_ids (host_receive_all requests main_registry).2 = [7; 3; 5]%nat
  ∧ answered (run (drain c) c) ≡ₚ issued c
  ∧ 1%nat ∉ answered (run [Teardown; HostDeliver; RendererDeliver] c).
Proof.
  intros requests calls c.
  assert (Hdistinct : NoDup (request_ids requests)).
  { vm_compute. repeat constructor; rewrite ?elem_of_cons, ?elem_of_nil; intuition lia. }
  assert (Hopen : is_open c = true) by reflexivity.
  assert (Hpending : 1%nat ∈ pending (renderer c)).
  { assert (Hone : pending (renderer c) = {[ 1%nat ]}) by (vm_compute; reflexivity).
    rewrite Hone. apply elem_of_singleton. reflexivity. }
  destruct (every_invoke_request_is_answered_once main_registry requests
              (calls ++ [HostDeliver; RendererDeliver; RendererDeliver])
              [HostDeliver; RendererDeliver] 1%nat)
    as (Hhost & _ & _ & _ & Hdrain & Htorn).
  split; [split_and!; assumption|].
  split; [|split].
  - exact (proj1 (Hhost Hdistinct)).
  - apply (Hdrain Hopen).
  - apply (Htorn Hopen Hpending).
Defined.

(** C8. Tearing the transport down while calls are pending settles each
    of them with [TransportClosedError], and with nothing else, and leaves
    no pending entry and no queued message behind: afterwards every call
    ever issued is settled exactly once. With two calls pending, both are
    settled with [TransportClosedError]. *)
Theorem teardown_settles_every_pending_call registry es es' id (r : Renderer) :
  let c := run es (connect registry) in
  let c' := run (Teardown :: es') c in
  (pending (renderer_teardown r) = ∅
   ∧ (id ∈ pending r →
      (id, inr TransportClosedError) ∈ settled (renderer_teardown r)))
  ∧ (is_open c = true →
     pending (renderer c') = ∅ ∧ to_host c' = [] ∧ to_renderer c' = []
     ∧ (id ∈ pending (renderer c) →
        (id, inr TransportClosedError) ∈ settled (renderer c')
        ∧ ∀ o : Outcome, (id, o) ∈ settled (renderer c') →
                         o = inr TransportClosedError)
     ∧ NoDup (settled (renderer c')).*1
     ∧ (settled (renderer c')).*1 ≡ₚ issued c')
  ∧ (settled (renderer (run [RendererCall "backend" "incrementCount" [];
                             RendererCall "backend" "sendToBackend" [VString []];
                             Teardown] (connect registry)))).*2
    = [inr TransportClosedError; inr TransportClosedError].
Proof.
  intros c c'. split; [|split].
  - split; [reflexivity|]. intros Hpending.
    unfold renderer_teardown; cbn [settled].
    rewrite elem_of_app. right.
    apply elem_of_settled_with. split; [apply elem_of_elements, Hpending | reflexivity].
  - intros Hopen.
    assert (Hinv : channel_inv c) by apply reachable_inv.
    subst c'. rewrite run_cons, (run_closed es' _ (step_Teardown_closed c)).
    destruct (teardown_facts c Hopen Hinv)
      as (_ & Hhost & Hrenderer & Hsent & Hdelivered & Hnone & Hsettled & Helements).
    destruct (open_channel_facts c Hopen Hinv) as (Hseq & Hwhere & Hnodup & _ & _).
    split; [exact Hnone|]. split; [exact Hhost|]. split; [exact Hrenderer|].
    assert (Hids : (settled (renderer (step c Teardown))).*1 ≡ₚ issued c).
    { rewrite Hsettled, fmap_app, settled_with_ids, Helements, Hwhere.
      apply Permutation_app_comm. }
    split; [|split].
    + intros Hpending.
      assert (Hflight : id ∈ in_flight c)
        by (rewrite <- Helements; apply elem_of_elements, Hpending).
      rewrite Hsettled. split.
      * rewrite elem_of_app, elem_of_settled_with. right.
        split; [apply elem_of_elements, Hpending | reflexivity].
      * intros o [Hresponse|Htorn]%elem_of_app.
        -- exfalso. apply NoDup_app in Hnodup as (_ & Hdisjoint & _).
           apply (Hdisjoint id Hflight). unfold answered, response_ids.
           apply list_elem_of_fmap. exists (id, o). auto.
        -- apply elem_of_settled_with in Htorn. tauto.
    + rewrite Hids, Hseq. apply NoDup_seq.
    + rewrite Hids. unfold issued. rewrite Hsent. reflexivity.
  - unfold run, foldl, step, connect; cbn. reflexivity.
Qed.

Lemma teardown_settles_every_pending_call_witness :
  let calls := [RendererCall "backend" "incrementCount" [];
                RendererCall "backend" "sendToBackend" [VString []]] in
  let c := run calls (connect main_registry) in
  let c' := run [Teardown; HostDeliver; RendererDeliver] c in
  (is_open c = true ∧ 0%nat ∈ pending (renderer c) ∧ 1%nat ∈ pending (renderer c))
  ∧ pending (renderer c') = ∅
  ∧ (0%nat, inr TransportClosedError) ∈ settled (renderer c')
  ∧ (1%nat, inr TransportClosedError) ∈ settled (renderer c').
Proof.
  intros calls c c'.
  assert (Hopen : is_open c = true) by reflexivity.
  assert (Hboth : pending (renderer c) = {[ 1%nat ]} ∪ ({[ 0%nat ]} ∪ ∅))
    by reflexivity.
  assert (Hzero : 0%nat ∈ pending (renderer c)).
  { rewrite Hboth, !elem_of_union, !elem_of_singleton. auto. }
  assert (Hone : 1%nat ∈ pending (renderer c)).
  { rewrite Hboth, !elem_of_union, !elem_of_singleton. auto. }
  destruct (teardown_settles_every_pending_call main_registry calls
              [HostDeliver; RendererDeliver] 0%nat fresh_renderer)
    as (_ & Hzero' & _).
  destruct (teardown_settles_every_pending_call main_registry calls
              [HostDeliver; RendererDeliver] 1%nat fresh_renderer)
    as (_ & Hone' & _).
  destruct (Hzero' Hopen) as (Hnone & _ & _ & Hsettled0 & _).
  destruct (Hone' Hopen) as (_ & _ & _ & Hsettled1 & _).
  split; [split_and!; assumption|].
  split; [exact Hnone|].
  split; [apply (Hsettled0 Hzero) | apply (Hsettled1 Hone)].
Defined.

(** ** Order of notifications *)

Lemma host_outputs_app es1 es2 c :
  host_outputs (es1 ++ es2) c = host_outputs es1 c ++ host_outputs es2 (run es1 c).
Proof.
  revert c. induction es1 as [|e es1 IH]; intros c; [reflexivity|].
  cbn [app host_outputs]. rewrite IH, run_cons, app_assoc. reflexivity.
Qed.

Lemma renderer_receive_heard m r :
  heard (renderer_receive m r) = heard r ++ omap notification [m].
Proof.
  destruct m as [| | |id outcome| |]; cbn [renderer_receive];
    [| | |destruct (decide (id ∈ pending r))| |]; cbn;
    rewrite ?app_nil_r; reflexivity.
Qed.

Lemma omap_prefix {A B} (f : A → option B) (l1 l2 : list A) :
  l1 `prefix_of` l2 → omap f l1 `prefix_of` omap f l2.
Proof. intros [k ->]. rewrite omap_app. apply prefix_app_r. reflexivity. Qed.

Lemma about_notification (object : string) ms :
  omap (about object) (omap notification ms) = omap (about object) ms.
Proof.
  induction ms as [|m ms IH]; [reflexivity|].
  destruct m as [| | | |o property value|o signal args]; simpl; try exact IH;
    destruct (decide (o = object)); simpl;
    first [exact IH | f_equal; exact IH].
Qed.

(** The transport is first in, first out, and the listeners hear what is
    delivered: one event keeps this in step with what the host hands
    over. *)
Lemma fifo_step c e (produced : list Message) :
  heard (renderer c) = omap notification (delivered c) →
  delivered c `prefix_of` produced →
  (is_open c = true → delivered c ++ to_renderer c = produced) →
  heard (renderer (step c e)) = omap notification (delivered (step c e))
  ∧ delivered (step c e) `prefix_of` (produced ++ host_output c e)
  ∧ (is_open (step c e) = true →
     delivered (step c e) ++ to_renderer (step c e) = produced ++ host_output c e).
Proof.
  intros Hheard Hprefix Hqueue. unfold step, host_output.
  destruct (is_open c) eqn:Hopen.
  2:{ rewrite app_nil_r, Hopen. split_and!; [assumption..|discriminate]. }
  specialize (Hqueue eq_refl).
  destruct e as [|object method args|object op| | |]; cbn [step_open].
  - cbn. rewrite app_nil_r. auto.
  - cbn. rewrite app_nil_r. auto.
  - destruct (host_run object op (host c)) as [registry out]. cbn.
    split; [assumption|]. split; [apply prefix_app_r, Hprefix|].
    intros _. rewrite app_assoc, Hqueue. reflexivity.
  - destruct (to_host c) as [|m rest].
    { rewrite app_nil_r, Hopen. auto. }
    destruct (host_receive m (host c)) as [registry out]. cbn.
    split; [assumption|]. split; [apply prefix_app_r, Hprefix|].
    intros _. rewrite app_assoc, Hqueue. reflexivity.
  - destruct (to_renderer c) as [|m rest] eqn:Hwaiting.
    { rewrite app_nil_r, Hopen, Hwaiting. auto. }
    cbn. rewrite renderer_receive_heard, omap_app, Hheard, app_nil_r.
    split; [reflexivity|].
    assert (Hmoved : (delivered c ++ [m]) ++ rest = produced)
      by (rewrite <- app_assoc; exact Hqueue).
    split; [exists rest; symmetry; exact Hmoved | intros _; exact Hmoved].
  - cbn. rewrite app_nil_r. split_and!; [assumption..|discriminate].
Qed.

Lemma fifo_run es c (produced : list Message) :
  heard (renderer c) = omap notification (delivered c) →
  delivered c `prefix_of` produced →
  (is_open c = true → delivered c ++ to_renderer c = produced) →
  heard (renderer (run es c)) = omap notification (delivered (run es c))
  ∧ delivered (run es c) `prefix_of` (produced ++ host_outputs es c)
  ∧ (is_open (run es c) = true →
     delivered (run es c) ++ to_renderer (run es c) = produced ++ host_outputs es c).
Proof.
  revert c produced. induction es as [|e es IH]; intros c produced Hheard Hprefix Hqueue.
  - cbn [host_outputs]. rewrite app_nil_r. auto.
  - rewrite run_cons. cbn [host_outputs]. rewrite app_assoc.
    destruct (fifo_step c e produced Hheard Hprefix Hqueue) as (H1 & H2 & H3).
    apply IH; assumption.
Qed.

Lemma fifo_reachable registry es :
  let c := run es (connect registry) in
  heard (renderer c) = omap notification (delivered c)
  ∧ delivered c `prefix_of` host_outputs es (connect registry)
  ∧ (is_open c = true →
     delivered c ++ to_renderer c = host_outputs es (connect registry)).
Proof.
  apply (fifo_run es (connect registry) []); [reflexivity | reflexivity | reflexivity].
Qed.

(** C5. [setMessage] and then [setCount], each with a new value, emit
    [messageChanged] and then [countChanged]. When the host runs the two
    as one operation, on a channel in any reachable state, it hands the
    message change to the transport right before the count change, behind
    everything it handed over earlier. On every schedule, what has been
    delivered is, in order, the beginning of what the host has handed over,
    and the rest is queued in order; the listeners hear the delivered
    notifications in that order, also object by object; and once the queues
    are emptied they have heard every notification handed over. So the
    count change of the operation is never observed before its message
    change. *)
Theorem messageChanged_is_observed_before_countChanged
    (this : BackendObject.t) (msg : QString) (n : Z) registry
    (earlier later es : list Event) (name object : string) :
  m_message this ≠ msg → m_count this ≠ n →
  let both := HostRun name (setMessage msg;; setCount n) in
  let c0 := run earlier (connect registry) in
  let c := run es (connect registry) in
  emitted (setMessage msg;; setCount n) this = [messageChanged msg; countChanged n]
  ∧ (is_open c0 = true → host c0 !! name = Some this →
     host_outputs (earlier ++ both :: later) (connect registry)
     = host_outputs earlier (connect registry)
       ++ [PropertyChanged name "message" (VString msg);
           PropertyChanged name "count" (VInt n)]
       ++ host_outputs later (step c0 both))
  ∧ delivered c `prefix_of` host_outputs es (connect registry)
  ∧ (is_open c = true →
     delivered c ++ to_renderer c = host_outputs es (connect registry))
  ∧ heard (renderer c) = omap notification (delivered c)
  ∧ omap (about object) (heard (renderer c))
    `prefix_of` omap (about object) (host_outputs es (connect registry))
  ∧ (is_open c = true →
     omap notification (host_outputs es (connect registry))
     `prefix_of` heard (renderer (run (drain c) c))).
Proof.
  intros Hmsg Hn both c0 c.
  assert (Hemitted : emitted (setMessage msg;; setCount n) this
                     = [messageChanged msg; countChanged n]).
  { unfold emitted at 1. rewrite then_unfold. cbn [fst snd].
    unfold emitted, object_after. rewrite setMessage_unfold.
    rewrite (bool_decide_eq_true_2 _ Hmsg). cbn [fst snd].
    rewrite setCount_unfold. cbn [m_count].
    rewrite (bool_decide_eq_true_2 _ Hn). reflexivity. }
  destruct (fifo_reachable registry es) as (Hheard & Hprefix & Hqueue).
  fold c in Hheard, Hprefix, Hqueue.
  split; [exact Hemitted|]. split; [|split; [exact Hprefix|]].
  { intros Hopen Hhost.
    assert (Hout : host_output c0 both
                   = [PropertyChanged name "message" (VString msg);
                      PropertyChanged name "count" (VInt n)]).
    { unfold host_output, both, host_run. rewrite Hopen, Hhost.
      pose proof Hemitted as Hsignals. unfold emitted in Hsignals.
      destruct ((setMessage msg;; setCount n) this) as [[[] this'] out].
      cbn [snd] in Hsignals |- *. rewrite Hsignals. reflexivity. }
    rewrite host_outputs_app. cbn [host_outputs].
    change (run earlier (connect registry)) with c0.
    rewrite Hout. reflexivity. }
  split; [exact Hqueue|]. split; [exact Hheard|]. split.
  - rewrite Hheard, about_notification. apply omap_prefix, Hprefix.
  - intros Hopen.
    destruct (drain_empties_the_queues c Hopen) as (Hopen' & _ & Hempty & _).
    destruct (fifo_reachable registry (es ++ drain c)) as (Hheard' & _ & Hqueue').
    rewrite run_app in Hheard', Hqueue'. fold c in Hheard', Hqueue'.
    specialize (Hqueue' Hopen'). rewrite Hempty, app_nil_r in Hqueue'.
    rewrite Hheard', Hqueue', host_outputs_app, omap_app. fold c.
    apply prefix_app_r. reflexivity.
Qed.

Lemma messageChanged_before_countChanged_witness :
  let msg := QStringLiteral "hi" in
  let this := BackendObject.mk (QStringLiteral "Hello from C++ backend!") 1 in
  let earlier := [RendererCall "backend" "incrementCount" []; HostDeliver] in
  let both := HostRun "backend" (setMessage msg;; setCount 5) in
  let later := [RendererDeliver; RendererDeliver; RendererDeliver; RendererDeliver] in
  let c0 := run earlier (connect main_registry) in
  let c := run (earlier ++ both :: later) (connect main_registry) in
  (m_message this ≠ msg ∧ m_count this ≠ 5
   ∧ is_open c0 = true ∧ host c0 !! "backend" = Some this ∧ is_open c = true)
  ∧ host_outputs (earlier ++ both :: later) (connect main_registry)
    = [PropertyChanged "backend" "count" (VInt 1); InvokeResponse 0%nat (inl VVoid)]
      ++ [PropertyChanged "backend" "message" (VString msg);
          PropertyChanged "backend" "count" (VInt 5)]
      ++ []
  ∧ heard (renderer c)
    = [PropertyChanged "backend" "count" (VInt 1);
       PropertyChanged "backend" "message" (VString msg);
       PropertyChanged "backend" "count" (VInt 5)].
Proof.
  intros msg this earlier both later c0 c.
  assert (Hmsg : m_message this ≠ msg) by (vm_compute; discriminate).
  assert (Hn : m_count this ≠ 5) by (vm_compute; discriminate).
  assert (Hopen0 : is_open c0 = true) by reflexivity.
  assert (Hhost : host c0 !! "backend" = Some this) by (vm_compute; reflexivity).
  assert (Hopen : is_open c = true) by reflexivity.
  destruct (messageChanged_is_observed_before_countChanged
              this msg 5 main_registry earlier later (earlier ++ both :: later)
              "backend" "backend" Hmsg Hn)
    as (_ & Hhanded & _ & _ & Hheard & _ & _).
  split; [split_and!; assumption|]. split.
  - exact (Hhanded Hopen0 Hhost).
  - exact Hheard.
Defined.

End ChannelFacts.



(** * Sequences of calls on the backend object *)

Import Scenario.

Section BackendObjectSequences.

Implicit Types (this copy : BackendObject.t) (msg text : QString) (n : Z)
  (i : Invocation) (ivs : list Invocation).

Lemma perform_all_cons i ivs this :
  emitted (perform_all (i :: ivs)) this
  = emitted (perform i) this ++ emitted (perform_all ivs) (object_after (perform i) this)
  ∧ object_after (perform_all (i :: ivs)) this
    = object_after (perform_all ivs) (object_after (perform i) this).
Proof.
  cbn [perform_all]. split.
  - unfold emitted at 1. rewrite then_unfold. reflexivity.
  - unfold object_after at 1. rewrite then_unfold. reflexivity.
Qed.

(** What one call can do: nothing to the two properties, with no change
    signal; or a new message, announced; or a new count, announced. *)
Lemma perform_cases i this :
  (object_after (perform i) this = this
   ∧ omap announced_count (emitted (perform i) this) = []
   ∧ omap announced_message (emitted (perform i) this) = []
   ∧ hear_all this (emitted (perform i) this) = this)
  ∨ (∃ msg, msg ≠ m_message this
       ∧ object_after (perform i) this = mk msg (m_count this)
       ∧ emitted (perform i) this = [messageChanged msg])
  ∨ (∃ n, n ≠ m_count this
       ∧ object_after (perform i) this = mk (m_message this) n
       ∧ emitted (perform i) this = [countChanged n]).
Proof.
  unfold object_after, emitted.
  destruct i as [msg|n| |text]; cbn [perform].
  - rewrite setMessage_unfold. case_bool_decide as Hne.
    + right. left. exists msg. auto.
    + left. auto.
  - rewrite setCount_unfold. case_bool_decide as Hne.
    + right. right. exists n. auto.
    + left. auto.
  - rewrite incrementCount_unfold, setCount_unfold. case_bool_decide as Hne.
    + right. right. exists (int_add (m_count this) 1). auto.
    + left. auto.
  - rewrite sendToBackend_unfold. left. auto.
Qed.

(** Below [INT_MAX], [incrementCount] adds one, keeps the message and
    announces the new count. *)
Lemma incrementCount_adds_one_below_INT_MAX_aux this :
  in_int (m_count this) → m_count this ≠ INT_MAX →
  m_count (object_after incrementCount this) = m_count this + 1
  ∧ m_message (object_after incrementCount this) = m_message this
  ∧ emitted incrementCount this = [countChanged (m_count this + 1)].
Proof.
  intros Hint Hmax. unfold object_after, emitted.
  rewrite incrementCount_unfold, setCount_unfold.
  rewrite (int_add_1_no_overflow _ Hint Hmax).
  rewrite bool_decide_eq_true_2 by lia. split_and!; reflexivity.
Qed.

(** X1. What a setter is given is what the getter returns afterwards,
    whether or not the setter changed anything; the getters emit nothing
    and leave the object as it is. *)
Theorem getter_returns_what_the_setter_was_given this msg n :
  returned message (object_after (setMessage msg) this) = msg
  ∧ returned count (object_after (setCount n) this) = n
  ∧ emitted message this = [] ∧ object_after message this = this
  ∧ emitted count this = [] ∧ object_after count this = this.
Proof.
  unfold returned, object_after, emitted.
  rewrite setMessage_unfold, setCount_unfold.
  split_and!; try reflexivity.
  - case_bool_decide as Hne; cbn; [reflexivity|].
    destruct (decide (m_message this = msg)); [assumption | contradiction].
  - case_bool_decide as Hne; cbn; [reflexivity|].
    destruct (decide (m_count this = n)); [assumption | contradiction].
Qed.

(** X2. [incrementCount] called [k] times on an [int] count that stays
    within [INT_MAX] adds [k] to the count, leaves the message alone, and
    announces each intermediate count once, in increasing order. *)
Theorem incrementCount_k_times (k : nat) this :
  in_int (m_count this) → m_count this + Z.of_nat k ≤ INT_MAX →
  let calls := replicate k call_incrementCount in
  m_count (object_after (perform_all calls) this) = m_count this + Z.of_nat k
  ∧ m_message (object_after (perform_all calls) this) = m_message this
  ∧ emitted (perform_all calls) this
    = countChanged <$> seqZ (m_count this + 1) (Z.of_nat k).
Proof.
  revert this. induction k as [|k IH]; intros this Hint Hmax; cbn zeta.
  - cbn. split_and!; [lia | reflexivity | reflexivity].
  - cbn [replicate].
    destruct (perform_all_cons call_incrementCount
                (replicate k call_incrementCount) this) as [-> ->].
    assert (Hbelow : m_count this ≠ INT_MAX) by lia.
    destruct (incrementCount_adds_one_below_INT_MAX_aux this Hint Hbelow)
      as (Hcount & Hmessage & Hemitted).
    cbn [perform]. rewrite Hemitted.
    set (next := object_after incrementCount this) in *.
    assert (Hint' : in_int (m_count next))
      by (rewrite Hcount; unfold in_int, INT_MIN, INT_MAX in *; lia).
    assert (Hmax' : m_count next + Z.of_nat k ≤ INT_MAX) by lia.
    destruct (IH next Hint' Hmax') as (IHcount & IHmessage & IHemitted).
    rewrite IHcount, IHmessage, IHemitted, Hcount, Hmessage.
    split_and!; [lia | reflexivity |].
    rewrite (seqZ_cons (m_count this + 1) (Z.of_nat (S k))) by lia.
    cbn [fmap list_fmap app]. do 3 f_equal; lia.
Qed.

Lemma incrementCount_k_times_witness :
  (in_int (m_count BackendObject) ∧ m_count BackendObject + Z.of_nat 3 ≤ INT_MAX)
  ∧ m_count (object_after (perform_all (replicate 3 call_incrementCount)) BackendObject) = 3
  ∧ emitted (perform_all (replicate 3 call_incrementCount)) BackendObject
    = [countChanged 1; countChanged 2; countChanged 3].
Proof.
  assert (Hint : in_int (m_count BackendObject)) by (vm_compute; split; discriminate).
  assert (Hmax : m_count BackendObject + Z.of_nat 3 ≤ INT_MAX)
    by (vm_compute; discriminate).
  destruct (incrementCount_k_times 3 BackendObject Hint Hmax)
    as (Hcount & _ & Hemitted).
  split; [split; assumption|]. split; [exact Hcount | exact Hemitted].
Defined.

(** X3. A listener that starts from the properties of the object and
    applies every change signal it hears holds, after any sequence of
    calls, exactly the properties of the object. *)
Theorem change_signals_keep_a_copy_in_step ivs this :
  hear_all this (emitted (perform_all ivs) this) = object_after (perform_all ivs) this.
Proof.
  revert this. induction ivs as [|i ivs IH]; intros this; [reflexivity|].
  destruct (perform_all_cons i ivs this) as [-> ->].
  unfold hear_all. rewrite foldl_app. fold (hear_all this (emitted (perform i) this)).
  assert (Hone : hear_all this (emitted (perform i) this) = object_after (perform i) this).
  { destruct (perform_cases i this)
      as [(Hsame & _ & _ & Hheard)
         |[(msg & _ & Hafter & Hout)|(n & _ & Hafter & Hout)]].
    - rewrite Hheard, Hsame. reflexivity.
    - rewrite Hout, Hafter. reflexivity.
    - rewrite Hout, Hafter. reflexivity. }
  rewrite Hone. apply IH.
Qed.

(** X4. Over any sequence of calls, a change signal never repeats the
    value that was current: each announced count differs from the one
    announced before it (the first from the initial count), and likewise
    each announced message. *)
Theorem change_signals_never_repeat_the_current_value ivs this :
  no_repeat (m_count this :: omap announced_count (emitted (perform_all ivs) this))
  ∧ no_repeat (m_message this :: omap announced_message (emitted (perform_all ivs) this)).
Proof.
  revert this. induction ivs as [|i ivs IH]; intros this; [cbn; auto|].
  destruct (perform_all_cons i ivs this) as [-> _].
  rewrite !omap_app.
  destruct (IH (object_after (perform i) this)) as [IHcount IHmessage].
  destruct (perform_cases i this)
    as [(Hsame & Hcounts & Hmessages & _)
       |[(msg & Hne & Hafter & Hout)|(n & Hne & Hafter & Hout)]].
  - rewrite Hcounts, Hmessages. rewrite Hsame in IHcount, IHmessage |- *.
    cbn [app]. auto.
  - rewrite Hout. rewrite Hafter in IHcount, IHmessage |- *.
    cbn in IHcount, IHmessage |- *. auto.
  - rewrite Hout. rewrite Hafter in IHcount, IHmessage |- *.
    cbn in IHcount, IHmessage |- *. auto.
Qed.

(** X6. The two setters do not interfere: in either order they leave the
    same object, and emit the same signals up to their order. *)
Theorem setters_commute this msg n :
  object_after (setMessage msg;; setCount n) this
  = object_after (setCount n;; setMessage msg) this
  ∧ emitted (setMessage msg;; setCount n) this
    ≡ₚ emitted (setCount n;; setMessage msg) this.
Proof.
  unfold object_after, emitted. rewrite !then_unfold. cbn [fst snd].
  unfold object_after, emitted.
  rewrite (setMessage_unfold msg this), (setCount_unfold n this).
  destruct (bool_decide (m_message this ≠ msg)) eqn:Hm;
    destruct (bool_decide (m_count this ≠ n)) eqn:Hn;
    cbn [fst snd]; rewrite setMessage_unfold, setCount_unfold;
    cbn [m_message m_count]; rewrite Hm, Hn; cbn [fst snd app].
  - split; [reflexivity | apply Permutation_swap].
  - split; reflexivity.
  - split; reflexivity.
  - split; reflexivity.
Qed.

(** X7. The signal of [sendToBackend] determines the text it was called
    with, whatever the objects it was called on: the text is the payload
    without its first 18 characters. *)
Theorem sendToBackend_text_is_recoverable this1 this2 text1 text2 :
  emitted (sendToBackend text1) this1 = emitted (sendToBackend text2) this2 →
  text1 = text2
  ∧ emitted (sendToBackend text1) this1
    = [sendToFrontend (QStringLiteral "Backend received: " ++ text1)]
  ∧ drop 18 (QStringLiteral "Backend received: " ++ text1) = text1.
Proof.
  unfold emitted. rewrite !sendToBackend_unfold. cbn [snd].
  intros [= Heq]. split; [exact Heq|]. split; reflexivity.
Qed.

Lemma sendToBackend_text_is_recoverable_witness :
  emitted (sendToBackend (QStringLiteral "a")) BackendObject
  = emitted (sendToBackend (QStringLiteral "a")) (mk [] 5)
  ∧ drop 18 (QStringLiteral "Backend received: " ++ QStringLiteral "a")
    = QStringLiteral "a".
Proof.
  assert (Hsame : emitted (sendToBackend (QStringLiteral "a")) BackendObject
                  = emitted (sendToBackend (QStringLiteral "a")) (mk [] 5))
    by reflexivity.
  split; [exact Hsame|].
  apply (sendToBackend_text_is_recoverable BackendObject (mk [] 5)
           (QStringLiteral "a") (QStringLiteral "a") Hsame).
Defined.

End BackendObjectSequences.

(** * Properties of the program *)

Import Main.

Section MessageHandlerFacts.

Implicit Types (type : QtMsgType) (context : QMessageLogContext) (msg : QString).

Lemma logMessage_formats msg :
  arg (QStringLiteral "Debug: %1") msg = QStringLiteral "Debug: " ++ msg
  ∧ arg (QStringLiteral "Info: %1") msg = QStringLiteral "Info: " ++ msg
  ∧ arg (QStringLiteral "Warning: %1") msg = QStringLiteral "Warning: " ++ msg
  ∧ arg (QStringLiteral "Critical: %1") msg = QStringLiteral "Critical: " ++ msg
  ∧ arg (QStringLiteral "Fatal: %1") msg = QStringLiteral "Fatal: " ++ msg.
Proof.
  rewrite <- (app_nil_r msg) at 2 4 6 8 10.
  split_and!; vm_compute; reflexivity.
Qed.

Lemma messageHandler_calls context msg :
  messageHandler QtDebugMsg context msg
  = fprintf_stderr percent_s_newline (qPrintable (QStringLiteral "Debug: " ++ msg))
  ∧ messageHandler QtInfoMsg context msg
    = fprintf_stderr percent_s_newline (qPrintable (QStringLiteral "Info: " ++ msg))
  ∧ messageHandler QtWarningMsg context msg
    = fprintf_stderr percent_s_newline (qPrintable (QStringLiteral "Warning: " ++ msg))
  ∧ messageHandler QtCriticalMsg context msg
    = fprintf_stderr percent_s_newline (qPrintable (QStringLiteral "Critical: " ++ msg))
  ∧ messageHandler QtFatalMsg context msg
    = fprintf_stderr percent_s_newline (qPrintable (QStringLiteral "Fatal: " ++ msg)).
Proof.
  destruct (logMessage_formats msg) as (Hd & Hi & Hw & Hc & Hf).
  unfold messageHandler. rewrite Hd, Hi, Hw, Hc, Hf.
  split_and!; reflexivity.
Qed.

(** X8. For each of the five message types and whatever the message,
    [messageHandler] makes one call of [fprintf] on [stderr], with the
    format [%s] and a line feed, and as its argument [qPrintable] of the
    name of the severity, a colon, a space and the message as it was given:
    place markers in the message are not expanded and the context is not
    used. What reaches [stderr] is this string in the local 8-bit
    encoding. *)
Theorem messageHandler_prints_the_labelled_message context msg :
  messageHandler QtDebugMsg context msg
  = fprintf_stderr percent_s_newline (qPrintable (QStringLiteral "Debug: " ++ msg))
  ∧ messageHandler QtInfoMsg context msg
    = fprintf_stderr percent_s_newline (qPrintable (QStringLiteral "Info: " ++ msg))
  ∧ messageHandler QtWarningMsg context msg
    = fprintf_stderr percent_s_newline (qPrintable (QStringLiteral "Warning: " ++ msg))
  ∧ messageHandler QtCriticalMsg context msg
    = fprintf_stderr percent_s_newline (qPrintable (QStringLiteral "Critical: " ++ msg))
  ∧ messageHandler QtFatalMsg context msg
    = fprintf_stderr percent_s_newline (qPrintable (QStringLiteral "Fatal: " ++ msg)).
Proof. apply messageHandler_calls. Qed.

(** X9. The string [messageHandler] hands to [qPrintable] tells the
    severity and the message: two calls of [messageHandler] ask for the same
    [fprintf] only if they were given the same type and the same message,
    whatever their contexts. (Whether two such strings still differ as
    bytes is up to the local 8-bit encoding.) *)
Theorem messageHandler_argument_is_unambiguous type1 type2 context1 context2 msg1 msg2 :
  messageHandler type1 context1 msg1 = messageHandler type2 context2 msg2 →
  type1 = type2 ∧ msg1 = msg2.
Proof.
  destruct (messageHandler_calls context1 msg1) as (Hd1 & Hi1 & Hw1 & Hc1 & Hf1).
  destruct (messageHandler_calls context2 msg2) as (Hd2 & Hi2 & Hw2 & Hc2 & Hf2).
  destruct type1, type2;
    rewrite ?Hd1, ?Hi1, ?Hw1, ?Hc1, ?Hf1, ?Hd2, ?Hi2, ?Hw2, ?Hc2, ?Hf2;
    intros Hsame; vm_compute in Hsame;
    first [ discriminate Hsame
          | injection Hsame as Hsame; split; [reflexivity | exact Hsame] ].
Qed.

Lemma messageHandler_argument_is_unambiguous_witness :
  let context := mkContext [] 0 [] [] in
  let msg := QStringLiteral "ready" in
  messageHandler QtInfoMsg context msg
  = messageHandler QtInfoMsg (mkContext msg 12 [] []) msg
  ∧ QtInfoMsg = QtInfoMsg ∧ msg = msg.
Proof.
  intros context msg.
  assert (Hsame : messageHandler QtInfoMsg context msg
                  = messageHandler QtInfoMsg (mkContext msg 12 [] []) msg)
    by reflexivity.
  split; [exact Hsame|].
  apply (messageHandler_argument_is_unambiguous QtInfoMsg QtInfoMsg context
           (mkContext msg 12 [] []) msg msg Hsame).
Defined.

End MessageHandlerFacts.

Import MainWindow Trace.

Section MainWindowFacts.

Implicit Types (w : MainWindow.t) (e : Emission) (es : list Emission)
  (wiring : list (Sender * Slot)) (reason : ActivationReason)
  (webView : MyWebView) (name : QString) (available : bool).

Lemma member_then_unfold (f g : Member unit) w :
  (f;; g) w
  = ((), window_after g (window_after f w), calls f w ++ calls g (window_after f w)).
Proof.
  unfold mbind, Member_bind, window_after, calls.
  destruct (f w) as [[[] w1] out1]; simpl.
  destruct (g w1) as [[[] w2] out2]; reflexivity.
Qed.

(** ** No slot touches the tray icon *)

Lemma run_slot_frame (slot : Slot) e w :
  window_after (run_slot slot e) w = w
  ∧ omap on_trayIcon (calls (run_slot slot e) w) = [].
Proof.
  destruct slot; try (split; reflexivity).
  destruct e as [| | |reason]; try (split; reflexivity).
  destruct reason; split; reflexivity.
Qed.

Lemma run_slots_frame (slots : list Slot) e w :
  window_after (run_slots slots e) w = w
  ∧ omap on_trayIcon (calls (run_slots slots e) w) = [].
Proof.
  induction slots as [|slot slots IH]; [split; reflexivity|].
  cbn [run_slots]. unfold window_after at 1, calls at 1.
  rewrite member_then_unfold. cbn [fst snd].
  destruct (run_slot_frame slot e w) as [Hw Hcalls].
  rewrite Hw, omap_app, Hcalls. exact IH.
Qed.

Lemma deliver_all_frame wiring es w :
  window_after (deliver_all wiring es) w = w
  ∧ omap on_trayIcon (calls (deliver_all wiring es) w) = [].
Proof.
  induction es as [|e es IH]; [split; reflexivity|].
  cbn [deliver_all]. unfold window_after at 1, calls at 1.
  rewrite member_then_unfold. cbn [fst snd].
  destruct (run_slots_frame (filter (λ c, c.1 = sender_of e) wiring).*2 e w)
    as [Hw Hcalls].
  unfold deliver. rewrite Hw, omap_app, Hcalls. exact IH.
Qed.

(** X12. Over the life of a window, whatever signals reach it: when a
    system tray is available the tray icon is created, set up and shown
    once by the constructor, and hidden and then deleted once by the
    destructor; when none is available, no call is ever made on a tray
    icon. *)
Theorem tray_icon_is_shown_once_and_removed_once webView name available es :
  omap on_trayIcon (lifetime webView name available es)
  = if available
    then [new_QSystemTrayIcon; trayIcon_setIcon; trayIcon_setContextMenu trayMenu;
          trayIcon_show; trayIcon_hide; delete_trayIcon]
    else [].
Proof.
  unfold lifetime.
  destruct (MainWindow webView name available) as [w built] eqn:Hbuilt.
  destruct (deliver_all_frame (connections built) es w) as [Hw Hcalls].
  rewrite !omap_app, Hw, Hcalls.
  destruct available; injection Hbuilt as <- <-; reflexivity.
Qed.

(** ** What the signals do *)

Lemma reactions_after_construction webView name available reason :
  let '(w, built) := MainWindow webView name available in
  let wiring := connections built in
  calls (deliver wiring about_triggered) w
  = [QMessageBox_about (QStringLiteral "About") (QStringLiteral "Taqyon example app.")]
  ∧ calls (deliver wiring show_triggered) w
    = (if available then [show; raise; activateWindow] else [])
  ∧ calls (deliver wiring quit_triggered) w
    = (if available then [QApplication_quit] else [])
  ∧ calls (deliver wiring (tray_activated reason)) w
    = (if available && bool_decide (reason = Trigger)
       then [show; raise; activateWindow] else []).
Proof.
  destruct available, reason; vm_compute; split_and!; reflexivity.
Qed.

(** X13. On a constructed window: the About action opens the about box;
    the Show action of the tray menu, and a click on the tray icon with
    reason [Trigger], show, raise and activate the window, in that order; an
    activation of the tray icon for any other reason does nothing; the
    Quit action quits the application. Without a system tray only the
    About action is connected. *)
Theorem signals_run_the_connected_slots webView name available reason :
  let '(w, built) := MainWindow webView name available in
  let wiring := connections built in
  calls (deliver wiring about_triggered) w
  = [QMessageBox_about (QStringLiteral "About") (QStringLiteral "Taqyon example app.")]
  ∧ calls (deliver wiring show_triggered) w
    = (if available then [show; raise; activateWindow] else [])
  ∧ calls (deliver wiring quit_triggered) w
    = (if available then [QApplication_quit] else [])
  ∧ calls (deliver wiring (tray_activated reason)) w
    = (if available && bool_decide (reason = Trigger)
       then [show; raise; activateWindow] else []).
Proof. apply reactions_after_construction. Qed.

Lemma calls_deliver_all_cons wiring e es w :
  calls (deliver_all wiring (e :: es)) w
  = calls (deliver wiring e) w ++ calls (deliver_all wiring es) w.
Proof.
  cbn [deliver_all]. unfold calls at 1. rewrite member_then_unfold. cbn [snd].
  destruct (run_slots_frame (filter (λ c, c.1 = sender_of e) wiring).*2 e w)
    as [Hw _].
  unfold deliver at 2. rewrite Hw. reflexivity.
Qed.

(** X14. Over the life of a window the application is asked to quit once
    for each time the Quit action of the tray menu is triggered, and for
    no other reason; without a system tray it is never asked to quit. *)
Theorem quit_is_called_once_per_Quit_action webView name available es :
  length (filter (λ c, c = QApplication_quit) (lifetime webView name available es))
  = if available then length (filter (λ e, e = quit_triggered) es) else 0%nat.
Proof.
  unfold lifetime.
  destruct (MainWindow webView name available) as [w built] eqn:Hbuilt.
  rewrite !filter_app, !length_app.
  assert (Hbuilt_quiet : filter (λ c, c = QApplication_quit) built = []).
  { destruct available; injection Hbuilt as <- <-; vm_compute; reflexivity. }
  assert (Hdestroy_quiet :
    ∀ w', filter (λ c, c = QApplication_quit) (calls destroy w') = []).
  { intros [view [[]|]]; reflexivity. }
  rewrite Hbuilt_quiet, Hdestroy_quiet. cbn [length]. rewrite Nat.add_0_r.
  cbn [Nat.add].
  induction es as [|e es IH].
  { destruct available; reflexivity. }
  rewrite calls_deliver_all_cons, filter_app, length_app, IH.
  pose proof (reactions_after_construction webView name available
                match e with tray_activated reason => reason | _ => Unknown end)
    as Hreactions.
  rewrite Hbuilt in Hreactions. cbn zeta in Hreactions.
  destruct Hreactions as (Habout & Hshow & Hquit & Htray).
  destruct e as [| | |reason].
  - rewrite Habout. destruct available; reflexivity.
  - rewrite Hshow. destruct available; reflexivity.
  - rewrite Hquit. destruct available; reflexivity.
  - rewrite Htray. destruct available, (bool_decide (reason = Trigger)); reflexivity.
Qed.

End MainWindowFacts.

Section MainFacts.

Implicit Types (env : Environment).

Ltac in_order :=
  repeat first [ apply sublist_nil_l | apply sublist_skip | apply sublist_cons ].

Ltac none_of_them :=
  repeat (apply Forall_cons; split;
          [split_and!; try discriminate; intros ?; discriminate|]);
  apply Forall_nil; exact I.

(** X10. When the frontend url is not valid, [main] returns 1 right after
    resolving it: no url is loaded, no window is built or shown, the event
    loop is not entered, and a log file opened by [setupLogging] is neither
    closed nor deleted. Otherwise [main] loads the url, shows the window,
    runs the event loop and returns what [exec] returned, and the log file,
    if one was opened, is closed and then deleted after the event loop and
    not otherwise. *)
Theorem main_returns_1_before_loading_an_invalid_url env :
  (frontendUrl_isValid env = false →
     (main env).1 = 1
     ∧ last (main env).2 = Some resolveFrontendUrl
     ∧ Forall (λ s, s ≠ setUrl ∧ s ≠ exec ∧ s ≠ logFile_close
                    ∧ s ≠ delete_logFile ∧ ∀ c, s ≠ window c) (main env).2)
  ∧ (frontendUrl_isValid env = true →
     (main env).1 = exec_result env
     ∧ [resolveFrontendUrl; setUrl; window show; exec] `sublist_of` (main env).2
     ∧ if logFile_is_set env
       then [exec; logFile_close; delete_logFile] `sublist_of` (main env).2
       else Forall (λ s, s ≠ logFile_close ∧ s ≠ delete_logFile) (main env).2).
Proof.
  destruct env as [argv0 verbose directory logFile valid tray view result].
  cbn [frontendUrl_isValid exec_result logFile_is_set].
  split; intros ->; unfold main;
    cbn [frontendUrl_isValid exec_result logFile_is_set options_verbose
         argv0_fileName applicationDirPath isSystemTrayAvailable Main.webView negb].
  - destruct verbose; cbn [fst snd app].
    + split; [reflexivity|]. split; [reflexivity|]. none_of_them.
    + split; [reflexivity|]. split; [reflexivity|]. none_of_them.
  - destruct (MainWindow view argv0 tray) as [mainWindow built] eqn:Hbuilt.
    destruct verbose, logFile, tray; injection Hbuilt as <- <-;
      cbn; (split; [reflexivity|]); (split; [in_order|]);
      lazymatch goal with
      | |- sublist _ _ => in_order
      | |- Forall _ _ => none_of_them
      end.
Qed.

Lemma main_returns_1_before_loading_an_invalid_url_witness :
  let stuck := mkEnvironment (QStringLiteral "app") true [] true false true 1%N 0 in
  let fine := mkEnvironment (QStringLiteral "app") false [] true true false 1%N 3 in
  (frontendUrl_isValid stuck = false ∧ frontendUrl_isValid fine = true)
  ∧ (main stuck).1 = 1
  ∧ last (main stuck).2 = Some resolveFrontendUrl
  ∧ (main fine).1 = 3
  ∧ [exec; logFile_close; delete_logFile] `sublist_of` (main fine).2.
Proof.
  intros stuck fine.
  assert (Hstuck : frontendUrl_isValid stuck = false) by reflexivity.
  assert (Hfine : frontendUrl_isValid fine = true) by reflexivity.
  destruct (main_returns_1_before_loading_an_invalid_url stuck) as [Hinvalid _].
  destruct (main_returns_1_before_loading_an_invalid_url fine) as [_ Hvalid].
  destruct (Hinvalid Hstuck) as (Hone & Hlast & _).
  destruct (Hvalid Hfine) as (Hresult & _ & Hlog).
  split; [split; assumption|].
  split; [exact Hone|]. split; [exact Hlast|]. split; [exact Hresult | exact Hlog].
Defined.



End MainFacts.
